(** * Resumable event log and session registry

    A shallow embedding of the two TypeScript modules of the server:

    - [persistentEventStore.ts]: the connection pool ([getDbPool]), the
      event-id encoding ([generateEventId]), [storeEvent] and
      [replayEventsAfter] over the [McpEvents] table;
    - [index.ts]: the [transports] registry, the [POST /mcp] handler, the
      [GET]/[DELETE] handler [handleSessionRequest] and the transport's
      [onclose] observer.

    Asynchronous functions are written in a state-and-exception monad: a
    rejected promise is a thrown [JsError], [await] is sequencing.  What the
    code reads from its surroundings (the clock, the random source, whether
    the database answers) is an explicit argument of each operation. *)

From Stdlib Require Import ZArith NArith String Ascii List.
From Stdlib Require Import DecimalString DecimalPos DecimalZ Sorted Lia.
From stdpp Require Import gmap strings list.

Import ListNotations.
Local Open Scope string_scope.
Local Open Scope list_scope.

(** ** JavaScript values used by both modules *)

Module JS.

(** A thrown value: the [name] and [message] of a JavaScript [Error]. *)
Record JsError : Type := mkError { name : string; message : string }.

(** [!s] on a string: only the empty string is falsy. *)
Definition falsy (s : string) : bool :=
  match s with EmptyString => true | String _ _ => false end.

(** [s.split(sep)] for a one-character separator. *)
Fixpoint split (sep : ascii) (s : string) : list string :=
  match s with
  | EmptyString => [EmptyString]
  | String c s' =>
      if Ascii.eqb c sep then EmptyString :: split sep s'
      else match split sep s' with
           | [] => [String c EmptyString]
           | w :: ws => String c w :: ws
           end
  end.

(** [s.includes(c)] for a character. *)
Fixpoint contains (c : ascii) (s : string) : bool :=
  match s with
  | EmptyString => false
  | String c' s' => Ascii.eqb c' c || contains c s'
  end.

(** [a[0]] on an array of strings; [split] never returns the empty array. *)
Definition first (a : list string) : string :=
  match a with [] => EmptyString | w :: _ => w end.

(** [`${n}`] for an integer number. *)
Definition showInt (n : Z) : string := NilZero.string_of_int (Z.to_int n).

Definition hexDigit (n : N) : ascii :=
  match N.to_nat (n mod 16) with
  | 0 => "0" | 1 => "1" | 2 => "2" | 3 => "3" | 4 => "4" | 5 => "5"
  | 6 => "6" | 7 => "7" | 8 => "8" | 9 => "9" | 10 => "a" | 11 => "b"
  | 12 => "c" | 13 => "d" | 14 => "e" | _ => "f"
  end%char.

(** The [digits] lowest hexadecimal digits of [n], most significant first. *)
Fixpoint hex (digits : nat) (n : N) : string :=
  match digits with
  | O => EmptyString
  | S d => hex d (n / 16) ++ String (hexDigit n) EmptyString
  end.

(** [randomUUID()] of [node:crypto], as a function of the 128 bits it draws:
    version nibble 4, variant bits 10, printed 8-4-4-4-12. *)
Definition randomUUID (bits : N) : string :=
  let v4 := N.lor (N.land bits (N.lnot (N.shiftl 15 76) 128)) (N.shiftl 4 76) in
  let u := N.lor (N.land v4 (N.lnot (N.shiftl 3 62) 128)) (N.shiftl 2 62) in
  hex 8 (N.shiftr u 96) ++ "-" ++ hex 4 (N.shiftr u 80) ++ "-" ++
  hex 4 (N.shiftr u 64) ++ "-" ++ hex 4 (N.shiftr u 48) ++ "-" ++ hex 12 u.

End JS.

Import JS.

(** ** persistentEventStore.ts *)

Module EventStore.

Definition EventId := string.
Definition StreamId := string.

(** A row of [McpEvents].  The columns [EventId] and [StreamId] are written
    with an underscore, the plain names being those of the types.  [StoredAt]
    is the column value, an instant on the integer time line of the
    database. *)
Record Row : Type := mkRow {
  EventId_ : EventId;
  StreamId_ : StreamId;
  MessageJson : string;
  StoredAt : Z
}.

(** A row of [result.recordset]: the two columns the replay query selects. *)
Record RecordsetRow : Type := mkRecordsetRow { rEventId : EventId; rMessageJson : string }.

(** What one call reads from outside the process. [connect] and [fault] are
    the database's answers: [connect] is the outcome of [pool.connect()]
    (consulted only when no pool is cached), [fault] the error with which the
    driver rejects the query of this call, if it does (lost connection,
    timeout, a value wider than its declared parameter, ...). *)
Record Env : Type := mkEnv {
  Date_now : Z;                 (* Date.now() in generateEventId *)
  uuid_bits : N;                (* the bits randomUUID() draws *)
  new_Date : Z;                 (* new Date() in storeEvent *)
  connect : option JsError;
  fault : option JsError
}.

(** The lines written to the console, one constructor per call site. *)
Inductive LogLine : Type :=
| LogPoolCreating
| LogPoolConnected
| ErrConnectionFailed (err : JsError)
| LogStored (eventId : EventId) (streamId : StreamId)
| ErrStoring (eventId : EventId) (err : JsError)
| WarnNoLastEventId
| ErrNoStreamId (lastEventId : EventId)
| LogReplaying (streamId : StreamId) (lastEventId : EventId)
| ErrParsing (eventId : EventId) (err : JsError)
| LogReplayed (replayedCount : nat) (streamId : StreamId)
| ErrReplaying (streamId : StreamId) (err : JsError).

(** [generateEventId]: [`${streamId}_${Date.now()}_${randomUUID().substring(0, 8)}`]. *)
Definition generateEventId (streamId : StreamId) (now : Z) (bits : N) : EventId :=
  (streamId ++ "_" ++ showInt now ++ "_" ++ substring 0 8 (randomUUID bits))%string.

(** [lastEventId.split('_')[0]]. *)
Definition extractStreamId (lastEventId : EventId) : StreamId :=
  first (split "_"%char lastEventId).

(** *** The table and its two statements

    String comparison is exact (a binary collation) and values are stored
    as passed.  The primary key on [EventId] rejects a duplicate. *)

Definition primaryKeyViolation : JsError :=
  mkError "RequestError" "Violation of PRIMARY KEY constraint".

Definition subqueryError : JsError :=
  mkError "RequestError" "Subquery returned more than 1 value".

(** [INSERT INTO McpEvents (...) VALUES (...)]. *)
Definition insertRow (t : list Row) (r : Row) : JsError + list Row :=
  if existsb (fun x => String.eqb (EventId_ x) (EventId_ r)) t
  then inl primaryKeyViolation
  else inr (t ++ [r]).

(** [ORDER BY StoredAt ASC]: a stable insertion sort (the order of rows with
    equal [StoredAt] is not fixed by SQL; here they keep the scan order). *)
Fixpoint insertByStoredAt (r : Row) (l : list Row) : list Row :=
  match l with
  | [] => [r]
  | x :: l' => if (StoredAt r <=? StoredAt x)%Z then r :: l
               else x :: insertByStoredAt r l'
  end.

Fixpoint orderByStoredAt (l : list Row) : list Row :=
  match l with
  | [] => []
  | r :: l' => insertByStoredAt r (orderByStoredAt l')
  end.

(** [(SELECT le.StoredAt FROM McpEvents le WHERE le.EventId = @LastEventId
      AND le.StreamId = @TargetStreamId)] as a scalar: no row is NULL, more
    than one row is an error. *)
Definition referenceStoredAt (t : list Row) (streamId : StreamId)
    (lastEventId : EventId) : JsError + option Z :=
  match List.filter (fun le => String.eqb (EventId_ le) lastEventId
                               && String.eqb (StreamId_ le) streamId) t with
  | [] => inr None
  | [le] => inr (Some (StoredAt le))
  | _ :: _ :: _ => inl subqueryError
  end.

(** The replay query.  [e.StoredAt > NULL] holds for no row. *)
Definition selectEventsAfter (t : list Row) (streamId : StreamId)
    (lastEventId : EventId) : JsError + list RecordsetRow :=
  match referenceStoredAt t streamId lastEventId with
  | inl err => inl err
  | inr None => inr []
  | inr (Some ref) =>
      inr (List.map (fun e => mkRecordsetRow (EventId_ e) (MessageJson e))
             (orderByStoredAt
                (List.filter (fun e => String.eqb (StreamId_ e) streamId
                                       && (ref <? StoredAt e)%Z) t)))
  end.

Section Store.

(** [JSONRPCMessage] with [JSON.stringify] and [JSON.parse] (which throws a
    [SyntaxError] on malformed text), and the driver's conversion of a
    JavaScript [Date] (milliseconds since the epoch) to the column value. *)
Context {JSONRPCMessage : Type}.
Variable JSON_stringify : JSONRPCMessage -> string.
Variable JSON_parse : string -> JsError + JSONRPCMessage.
Variable sqlDateTime : Z -> Z.

(** The receiver of replayed events: the [send] callback acts on a state of
    its own and resolves ([None]) or rejects ([Some err]). *)
Context {Client : Type}.
Definition Send : Type := EventId -> JSONRPCMessage -> Client -> option JsError * Client.

(** One call of [send]: its arguments and whether it resolved. *)
Record Delivery : Type := mkDelivery {
  dEventId : EventId;
  dMessage : JSONRPCMessage;
  dOutcome : option JsError
}.

(** The process state: the cached pool ([pool != null]), the table, the
    console, the receiver, and the calls made to [send] so far. *)
Record State : Type := mkState {
  pool : bool;
  McpEvents : list Row;
  console : list LogLine;
  client : Client;
  deliveries : list Delivery
}.

(** Promises: a computation ends in a thrown error or a value. *)
Definition Async (A : Type) : Type := State -> (JsError + A) * State.

Definition ret {A} (a : A) : Async A := fun st => (inr a, st).
Definition throw {A} (err : JsError) : Async A := fun st => (inl err, st).
Definition bind {A B} (m : Async A) (k : A -> Async B) : Async B :=
  fun st => match m st with
            | (inl err, st') => (inl err, st')
            | (inr a, st') => k a st'
            end.
Definition try_catch {A} (m : Async A) (handler : JsError -> Async A) : Async A :=
  fun st => match m st with
            | (inl err, st') => handler err st'
            | (inr a, st') => (inr a, st')
            end.

Notation "'let*' x ':=' m 'in' k" := (bind m (fun x => k))
  (at level 10, x name, m at level 100, k at level 200).
Notation "m ';;' k" := (bind m (fun _ => k))
  (at level 100, k at level 200, right associativity).

Definition log (l : LogLine) : Async unit :=
  fun st => (inr tt, mkState (pool st) (McpEvents st) (console st ++ [l])
                             (client st) (deliveries st)).

Definition setPool (b : bool) : Async unit :=
  fun st => (inr tt, mkState b (McpEvents st) (console st) (client st) (deliveries st)).

(** [getDbPool], one call run to its end.  In the source [pool] is assigned
    before [pool.connect()] is awaited, so that a call arriving while a
    connect is pending returns the pool at once, and the pool's ['error']
    handler resets [pool] whenever the event fires.  Neither is a step of
    this model: a call finds the process with a pool cached and connected or
    with none, and the properties below are stated for every such state, of
    one call or of calls made one after the other. *)
Definition getDbPool (env : Env) : Async unit :=
  fun st =>
    if pool st then ret tt st
    else (log LogPoolCreating ;;
          match connect env with
          | None => setPool true ;; log LogPoolConnected
          | Some err => log (ErrConnectionFailed err) ;; setPool false ;; throw err
          end) st.

(** [request.query('INSERT ...')]. *)
Definition queryInsert (env : Env) (r : Row) : Async unit :=
  fun st =>
    match fault env with
    | Some err => throw err st
    | None =>
        match insertRow (McpEvents st) r with
        | inl err => throw err st
        | inr t => (inr tt, mkState (pool st) t (console st) (client st) (deliveries st))
        end
    end.

(** [request.query(query)] of the replay. *)
Definition querySelect (env : Env) (streamId : StreamId) (lastEventId : EventId)
    : Async (list RecordsetRow) :=
  fun st =>
    match fault env with
    | Some err => throw err st
    | None =>
        match selectEventsAfter (McpEvents st) streamId lastEventId with
        | inl err => throw err st
        | inr rows => ret rows st
        end
    end.

(** [storeEvent]. *)
Definition storeEvent (streamId : StreamId) (message : JSONRPCMessage) (env : Env)
    : Async EventId :=
  let eventId := generateEventId streamId (Date_now env) (uuid_bits env) in
  let messageJson := JSON_stringify message in
  let storedAt := new_Date env in
  try_catch
    (getDbPool env ;;
     queryInsert env (mkRow eventId streamId messageJson (sqlDateTime storedAt)) ;;
     log (LogStored eventId streamId) ;;
     ret eventId)
    (fun error => log (ErrStoring eventId error) ;; throw error).

(** [JSON.parse(row.MessageJson)] inside a promise. *)
Definition jsonParse (text : string) : Async JSONRPCMessage :=
  match JSON_parse text with
  | inl err => throw err
  | inr m => ret m
  end.

(** [await send(row.EventId, message)]. *)
Definition callSend (send : Send) (eventId : EventId) (m : JSONRPCMessage) : Async unit :=
  fun st =>
    let (r, c) := send eventId m (client st) in
    let st' := mkState (pool st) (McpEvents st) (console st) c
                       (deliveries st ++ [mkDelivery eventId m r]) in
    match r with
    | Some err => (inl err, st')
    | None => (inr tt, st')
    end.

(** The body of [for (const row of result.recordset)], threading
    [replayedCount]. *)
Fixpoint replayRows (send : Send) (rows : list RecordsetRow) (replayedCount : nat)
    : Async nat :=
  match rows with
  | [] => ret replayedCount
  | row :: rest =>
      let* n := try_catch
                  (let* message := jsonParse (rMessageJson row) in
                   callSend send (rEventId row) message ;;
                   ret (S replayedCount))
                  (fun parseError =>
                     log (ErrParsing (rEventId row) parseError) ;;
                     ret replayedCount) in
      replayRows send rest n
  end.

(** [replayEventsAfter]. *)
Definition replayEventsAfter (lastEventId : EventId) (send : Send) (env : Env)
    : Async StreamId :=
  if falsy lastEventId then
    log WarnNoLastEventId ;; ret ""
  else
    let streamId := extractStreamId lastEventId in
    if falsy streamId then
      log (ErrNoStreamId lastEventId) ;; ret ""
    else
      log (LogReplaying streamId lastEventId) ;;
      try_catch
        (getDbPool env ;;
         let* result := querySelect env streamId lastEventId in
         let* replayedCount :=
           match result with
           | [] => ret 0
           | _ :: _ => replayRows send result 0
           end in
         log (LogReplayed replayedCount streamId) ;;
         ret streamId)
        (fun error => log (ErrReplaying streamId error) ;; throw error).

(** *** Vocabulary of the properties *)

(** What a delivery handed to the receiver. *)
Definition payload (d : Delivery) : EventId * JSONRPCMessage := (dEventId d, dMessage d).

Definition resolved (d : Delivery) : bool :=
  match dOutcome d with None => true | Some _ => false end.

(** The calls [send] receives for a list of events, one awaited call after
    the other: each call acts on the receiver as the call before left it. *)
Fixpoint deliverAll (send : Send) (events : list (EventId * JSONRPCMessage)) (c : Client)
    : list Delivery * Client :=
  match events with
  | [] => ([], c)
  | (eventId, m) :: rest =>
      let (r, c1) := send eventId m c in
      let (ds, c2) := deliverAll send rest c1 in
      (mkDelivery eventId m r :: ds, c2)
  end.

(** The selected rows whose text parses, as the pairs [send] receives. *)
Fixpoint parsed (rows : list RecordsetRow) : list (EventId * JSONRPCMessage) :=
  match rows with
  | [] => []
  | row :: rest =>
      match JSON_parse (rMessageJson row) with
      | inr m => (rEventId row, m) :: parsed rest
      | inl _ => parsed rest
      end
  end.

(** The database answers the calls made under [env] from state [st]. *)
Definition reachable (env : Env) (st : State) : Prop :=
  (pool st = true \/ connect env = None) /\ fault env = None.

(** One [storeEvent] call of a history. *)
Record Append : Type := mkAppend {
  aStream : StreamId;
  aMessage : JSONRPCMessage;
  aEnv : Env
}.

Definition eventIdOf (a : Append) : EventId :=
  generateEventId (aStream a) (Date_now (aEnv a)) (uuid_bits (aEnv a)).

Definition storedAtOf (a : Append) : Z := sqlDateTime (new_Date (aEnv a)).

Definition rowOf (a : Append) : Row :=
  mkRow (eventIdOf a) (aStream a) (JSON_stringify (aMessage a)) (storedAtOf a).

(** The calls of a history in order, with what each returned. *)
Fixpoint appendAll (ops : list Append) (st : State) : list (JsError + EventId) * State :=
  match ops with
  | [] => ([], st)
  | a :: rest =>
      let (r, st1) := storeEvent (aStream a) (aMessage a) (aEnv a) st in
      let (rs, st2) := appendAll rest st1 in
      (r :: rs, st2)
  end.

Definition onStream (s : StreamId) (a : Append) : bool := String.eqb (aStream a) s.

(** The events of stream [s] appended after position [k], as [send] should
    receive them. *)
Definition laterOnStream (s : StreamId) (k : nat) (ops : list Append)
    : list (EventId * JSONRPCMessage) :=
  List.map (fun a => (eventIdOf a, aMessage a)) (List.filter (onStream s) (skipn (S k) ops)).

(** The state of a fresh process. *)
Definition fresh (c : Client) : State := mkState false [] [] c [].

(** Every call of the history returned its event id. *)
Definition allStored (ops : list Append) (c : Client) : Prop :=
  fst (appendAll ops (fresh c)) = List.map (fun a => inr (eventIdOf a)) ops.

(** Replaying after the [k]-th append of a history run from a fresh process
    returns the stream of that append, and the calls it makes to [send] are
    the calls for exactly the later events of that stream, in write order,
    one after the other. *)
Definition replayDeliversLater (ops : list Append) (k : nat) (send : Send)
    (env : Env) (c : Client) : Prop :=
  forall a, nth_error ops k = Some a ->
    let st1 := snd (appendAll ops (fresh c)) in
    let calls := deliverAll send (laterOnStream (aStream a) k ops) (client st1) in
    exists st2,
      replayEventsAfter (eventIdOf a) send env st1 = (inr (aStream a), st2)
      /\ deliveries st2 = deliveries st1 ++ fst calls
      /\ client st2 = snd calls.

End Store.

End EventStore.

(** ** JSON

    [JSON.stringify] and [JSON.parse] belong to the language, not to the
    repository, and the store is verified for any codec.  This module is the
    codec the payloads of the closed scenarios go through, a fragment of
    the language's JSON: numbers are the integers of any size (a text with a
    fraction or an exponent is rejected here, where [JSON.parse] reads a
    floating-point number), strings are character sequences, and an object
    is the list of its members as written.  [stringify] escapes the quote
    (character 34), the backslash and the control characters as
    [JSON.stringify] does; [parse] skips white space, rejects malformed text
    and numbers with a leading zero, and reads escapes up to [\u007f]. *)

Module Json.

Local Open Scope string_scope.

#[local] Unset Elimination Schemes.
Inductive value : Type :=
| Null
| Bool (b : bool)
| Number (n : Z)
| Str (s : string)
| Array (items : list value)
| Object (members : list (string * value)).
#[local] Set Elimination Schemes.

(** *** [JSON.stringify] *)

Definition quoteChar : ascii := "034"%char.

(** One character of a string literal: the quote and the backslash are
    escaped, control characters are written [\b \f \n \r \t] or [\u00xx]. *)
Definition escape (c : ascii) : string :=
  if Ascii.eqb c quoteChar then String "\"%char (String quoteChar EmptyString)
  else if Ascii.eqb c "\"%char then "\\"
  else if Ascii.eqb c "008"%char then "\b"
  else if Ascii.eqb c "012"%char then "\f"
  else if Ascii.eqb c "010"%char then "\n"
  else if Ascii.eqb c "013"%char then "\r"
  else if Ascii.eqb c "009"%char then "\t"
  else if (N_of_ascii c <? 32)%N then "\u00" ++ hex 2 (N_of_ascii c)
  else String c EmptyString.

Fixpoint quoteBody (s : string) : string :=
  match s with
  | EmptyString => EmptyString
  | String c s' => escape c ++ quoteBody s'
  end.

Definition quote (s : string) : string :=
  String quoteChar (quoteBody s ++ String quoteChar EmptyString).

Fixpoint joinItems (f : value -> string) (l : list value) : string :=
  match l with
  | [] => ""
  | [x] => f x
  | x :: l' => f x ++ "," ++ joinItems f l'
  end.

Fixpoint joinMembers (f : value -> string) (l : list (string * value)) : string :=
  match l with
  | [] => ""
  | [(k, x)] => quote k ++ ":" ++ f x
  | (k, x) :: l' => quote k ++ ":" ++ f x ++ "," ++ joinMembers f l'
  end.

Fixpoint stringify (v : value) : string :=
  match v with
  | Null => "null"
  | Bool true => "true"
  | Bool false => "false"
  | Number n => showInt n
  | Str s => quote s
  | Array items => "[" ++ joinItems stringify items ++ "]"
  | Object members => "{" ++ joinMembers stringify members ++ "}"
  end.

(** *** [JSON.parse] *)

Definition syntaxError : JsError := mkError "SyntaxError" "Unexpected token in JSON".

Definition isSpace (c : ascii) : bool :=
  Ascii.eqb c " "%char || Ascii.eqb c "009"%char || Ascii.eqb c "010"%char
  || Ascii.eqb c "013"%char.

Fixpoint skipSpace (s : string) : string :=
  match s with
  | String c s' => if isSpace c then skipSpace s' else s
  | EmptyString => s
  end.

Definition isDigit (c : ascii) : bool :=
  (48 <=? N_of_ascii c)%N && (N_of_ascii c <=? 57)%N.

(** The longest prefix of digits, and what follows it. *)
Fixpoint spanDigits (s : string) : string * string :=
  match s with
  | String c s' =>
      if isDigit c then let (ds, rest) := spanDigits s' in (String c ds, rest)
      else (EmptyString, s)
  | EmptyString => (EmptyString, s)
  end.

(** A number token may not start with a zero followed by another digit. *)
Definition leadingZero (token : string) : bool :=
  match token with
  | String "-"%char (String "0"%char (String _ _)) => true
  | String "0"%char (String _ _) => true
  | _ => false
  end.

(** A number token: an optional minus sign and digits, without a leading
    zero. *)
Definition parseNumber (s : string) : option (value * string) :=
  let (token, rest) :=
    match s with
    | String "-"%char s' => let (ds, rest) := spanDigits s' in (String "-"%char ds, rest)
    | _ => spanDigits s
    end in
  if leadingZero token then None
  else match NilZero.int_of_string token with
       | Some d => Some (Number (Z.of_int d), rest)
       | None => None
       end.

Definition hexValue (c : ascii) : option N :=
  let n := N_of_ascii c in
  if ((48 <=? n) && (n <=? 57))%N then Some (n - 48)%N
  else if ((97 <=? n) && (n <=? 102))%N then Some (n - 87)%N
  else if ((65 <=? n) && (n <=? 70))%N then Some (n - 55)%N
  else None.

(** The character written [\uh1h2h3h4], for code points below 128. *)
Definition unicodeEscape (h1 h2 h3 h4 : ascii) : option ascii :=
  match hexValue h1, hexValue h2, hexValue h3, hexValue h4 with
  | Some a, Some b, Some c, Some d =>
      let code := (((a * 16 + b) * 16 + c) * 16 + d)%N in
      if (code <? 128)%N then Some (ascii_of_N code) else None
  | _, _, _, _ => None
  end.

Definition simpleEscape (e : ascii) : option ascii :=
  if Ascii.eqb e quoteChar then Some quoteChar
  else if Ascii.eqb e "\"%char then Some "\"%char
  else if Ascii.eqb e "/"%char then Some "/"%char
  else if Ascii.eqb e "b"%char then Some "008"%char
  else if Ascii.eqb e "f"%char then Some "012"%char
  else if Ascii.eqb e "n"%char then Some "010"%char
  else if Ascii.eqb e "r"%char then Some "013"%char
  else if Ascii.eqb e "t"%char then Some "009"%char
  else None.

Definition consBody (c : ascii) (r : option (string * string)) : option (string * string) :=
  match r with
  | Some (body, rest) => Some (String c body, rest)
  | None => None
  end.

(** The body of a string literal, after the opening quote. *)
Fixpoint stringBody (s : string) : option (string * string) :=
  match s with
  | EmptyString => None
  | String c s' =>
      if Ascii.eqb c quoteChar then Some (EmptyString, s')
      else if Ascii.eqb c "\"%char then
        match s' with
        | String "u"%char (String h1 (String h2 (String h3 (String h4 s5)))) =>
            match unicodeEscape h1 h2 h3 h4 with
            | Some c' => consBody c' (stringBody s5)
            | None => None
            end
        | String e s'' =>
            match simpleEscape e with
            | Some c' => consBody c' (stringBody s'')
            | None => None
            end
        | EmptyString => None
        end
      else if (N_of_ascii c <? 32)%N then None
      else consBody c (stringBody s')
  end.

Fixpoint dropPrefix (word s : string) : option string :=
  match word with
  | EmptyString => Some s
  | String c word' =>
      match s with
      | String c' s' => if Ascii.eqb c c' then dropPrefix word' s' else None
      | EmptyString => None
      end
  end.

Definition expect (word : string) (v : value) (s : string) : option (value * string) :=
  match dropPrefix word s with
  | Some rest => Some (v, rest)
  | None => None
  end.

Fixpoint parseValue (fuel : nat) (s : string) : option (value * string) :=
  match fuel with
  | O => None
  | S fuel' =>
      match skipSpace s with
      | EmptyString => None
      | String c s' as s0 =>
          if isDigit c || Ascii.eqb c "-"%char then parseNumber s0
          else if Ascii.eqb c "n"%char then expect "null" Null s0
          else if Ascii.eqb c "t"%char then expect "true" (Bool true) s0
          else if Ascii.eqb c "f"%char then expect "false" (Bool false) s0
          else if Ascii.eqb c quoteChar then
            match stringBody s' with
            | Some (body, rest) => Some (Str body, rest)
            | None => None
            end
          else if Ascii.eqb c "["%char then
            match skipSpace s' with
            | String "]"%char rest => Some (Array [], rest)
            | _ =>
                match parseItems fuel' s' with
                | Some (items, rest) => Some (Array items, rest)
                | None => None
                end
            end
          else if Ascii.eqb c "{"%char then
            match skipSpace s' with
            | String "}"%char rest => Some (Object [], rest)
            | _ =>
                match parseMembers fuel' s' with
                | Some (members, rest) => Some (Object members, rest)
                | None => None
                end
            end
          else None
      end
  end

with parseItems (fuel : nat) (s : string) : option (list value * string) :=
  match fuel with
  | O => None
  | S fuel' =>
      match parseValue fuel' s with
      | Some (x, rest) =>
          match skipSpace rest with
          | String ","%char rest' =>
              match parseItems fuel' rest' with
              | Some (xs, rest'') => Some (x :: xs, rest'')
              | None => None
              end
          | String "]"%char rest' => Some ([x], rest')
          | _ => None
          end
      | None => None
      end
  end

with parseMembers (fuel : nat) (s : string) : option (list (string * value) * string) :=
  match fuel with
  | O => None
  | S fuel' =>
      match skipSpace s with
      | String c s1 =>
          if Ascii.eqb c quoteChar then
            match stringBody s1 with
            | Some (k, s2) =>
                match skipSpace s2 with
                | String ":"%char s3 =>
                    match parseValue fuel' s3 with
                    | Some (x, rest) =>
                        match skipSpace rest with
                        | String ","%char rest' =>
                            match parseMembers fuel' rest' with
                            | Some (ms, rest'') => Some ((k, x) :: ms, rest'')
                            | None => None
                            end
                        | String "}"%char rest' => Some ([(k, x)], rest')
                        | _ => None
                        end
                    | None => None
                    end
                | _ => None
                end
            | None => None
            end
          else None
      | EmptyString => None
      end
  end.

(** The number of nodes of a value, list cells included. *)
Fixpoint sizeItems (f : value -> nat) (l : list value) : nat :=
  match l with
  | [] => 0
  | x :: l' => S (f x + sizeItems f l')
  end.

Fixpoint sizeMembers (f : value -> nat) (l : list (string * value)) : nat :=
  match l with
  | [] => 0
  | (_, x) :: l' => S (f x + sizeMembers f l')
  end.

Fixpoint size (v : value) : nat :=
  match v with
  | Array items => S (sizeItems size items)
  | Object members => S (sizeMembers size members)
  | _ => 1
  end.

(** Text that cannot continue a number token. *)
Definition noDigitHead (s : string) : Prop :=
  match s with
  | String c _ => isDigit c = false
  | EmptyString => True
  end.

(** A character that is neither white space nor a closing bracket. *)
Definition opens (c : ascii) : Prop :=
  isSpace c = false /\ c <> "]"%char /\ c <> "}"%char.

Definition parse (text : string) : JsError + value :=
  match parseValue (S (String.length text)) text with
  | Some (v, rest) =>
      match skipSpace rest with
      | EmptyString => inr v
      | String _ _ => inl syntaxError
      end
  | None => inl syntaxError
  end.

End Json.

(** ** index.ts *)

Module Server.

Inductive Method : Type := GET | POST | DELETE.

(** What the handlers read of a request: the [mcp-session-id] header
    ([None] when absent) and the parsed body. *)
Record Request : Type := mkRequest {
  method : Method;
  mcpSessionId : option string;
  body : Json.value
}.

Inductive Response : Type :=
| JsonRpcError (status : nat) (code : Z) (message : string) (id : Json.value)
    (* res.status(status).json({ jsonrpc: '2.0', error: { code, message }, id }) *)
| Plain (status : nat) (text : string)       (* res.status(status).send(text) *)
| Transported (reply : string).              (* written by the transport *)

(** A [StreamableHTTPServerTransport]: the id its [sessionIdGenerator]
    yields, and [transport.sessionId] (unset until initialization). *)
Record Transport : Type := mkTransport {
  generator : string;
  sessionId : option string
}.

(** The outcome of one [transport.handleRequest]: whether the transport ran
    its initialization (calling [onsessioninitialized]), whether it closed
    (calling [onclose]), the error it rejected with, whether the response
    head was already written, and what it wrote. *)
Record Handling : Type := mkHandling {
  initializes : bool;
  closes : bool;
  rejects : option JsError;
  headersSent : bool;
  reply : string
}.

(** The server: the [transports] object (its own properties) and, for the
    record, every transport constructed so far. *)
Record Server : Type := mkServer {
  transports : gmap string Transport;
  constructed : list Transport
}.

(** The property names every plain object inherits from [Object.prototype]. *)
Definition objectPrototypeKeys : list string :=
  [ "constructor"; "__defineGetter__"; "__defineSetter__"; "hasOwnProperty";
    "__lookupGetter__"; "__lookupSetter__"; "isPrototypeOf";
    "propertyIsEnumerable"; "toString"; "valueOf"; "__proto__";
    "toLocaleString" ].

Definition inherited (key : string) : bool :=
  existsb (String.eqb key) objectPrototypeKeys.

(** The value of [transports[key]]. *)
Inductive Looked : Type :=
| Undefined
| Own (t : Transport)
| Inherited (key : string).     (* a member of Object.prototype *)

Definition get (m : gmap string Transport) (key : string) : Looked :=
  match m !! key with
  | Some t => Own t
  | None => if inherited key then Inherited key else Undefined
  end.

Definition truthy (v : Looked) : bool :=
  match v with Undefined => false | Own _ | Inherited _ => true end.

(** A header value as a condition: [undefined] and [''] are falsy. *)
Definition present (h : option string) : bool :=
  match h with Some s => negb (falsy s) | None => false end.

(** [transports[sessionId]] where [sessionId] is the header. *)
Definition getHeader (m : gmap string Transport) (h : option string) : Looked :=
  match h with Some sid => get m sid | None => Undefined end.

(** Truthiness of a JSON value. *)
Definition truthyValue (v : Json.value) : bool :=
  match v with
  | Json.Null => false
  | Json.Bool b => b
  | Json.Number n => negb (n =? 0)%Z
  | Json.Str s => negb (falsy s)
  | Json.Array _ | Json.Object _ => true
  end.

(** [o[key]] on a parsed object: the last member of that name. *)
Fixpoint member (key : string) (members : list (string * Json.value)) : option Json.value :=
  match members with
  | [] => None
  | (k, v) :: rest =>
      match member key rest with
      | Some v' => Some v'
      | None => if String.eqb k key then Some v else None
      end
  end.

(** [req.body?.id || null]. *)
Definition bodyId (b : Json.value) : Json.value :=
  match b with
  | Json.Object members =>
      match member "id" members with
      | Some v => if truthyValue v then v else Json.Null
      | None => Json.Null
      end
  | _ => Json.Null
  end.

(** [transport.onclose]. *)
Definition onclose (t : Transport) (m : gmap string Transport) : gmap string Transport :=
  match sessionId t with
  | Some sid => if falsy sid then m else delete sid m
  | None => m
  end.

Section Handlers.

(** The SDK: [isInitializeRequest] and the behaviour of a transport on a
    request. *)
Variable isInitializeRequest : Json.value -> bool.
Variable sdk : Transport -> Request -> Handling.

(** [await transport.handleRequest(...)] on a transport, with the two hooks
    the handler installed: [onsessioninitialized] stores the transport under
    the generated id, [onclose] removes it. *)
Definition handleRequest (t : Transport) (req : Request) (s : Server)
    : option JsError * bool * string * Server :=
  let h := sdk t req in
  let t' := if initializes h then mkTransport (generator t) (Some (generator t)) else t in
  let m1 := if initializes h then <[generator t := t']> (transports s) else transports s in
  let m2 := if closes h then onclose t' m1 else m1 in
  (rejects h, headersSent h, reply h, mkServer m2 (constructed s)).

(** The [try { await transport.handleRequest(...) } catch { ... }] of both
    handlers; [internalError] is the 500 response of the handler.  Calling
    [handleRequest] on a value that is not a transport throws a [TypeError]
    ([transport.handleRequest is not a function]) before anything is
    written. *)
Definition tryHandle (v : Looked) (req : Request) (internalError : Response) (s : Server)
    : Response * Server :=
  match v with
  | Own t =>
      match handleRequest t req s with
      | (None, _, written, s') => (Transported written, s')
      | (Some _, true, written, s') => (Transported written, s')
      | (Some _, false, _, s') => (internalError, s')
      end
  | Inherited _ | Undefined => (internalError, s)
  end.

(** [app.post('/mcp', ...)]; [bits] feeds [randomUUID()], and
    [mcpServer.connect(transport)] is taken to resolve. *)
Definition postMcp (req : Request) (bits : N) (s : Server) : Response * Server :=
  let sessionId := mcpSessionId req in
  let internalError :=
    JsonRpcError 500 (-32603) "Internal Server Error" (bodyId (body req)) in
  if present sessionId && truthy (getHeader (transports s) sessionId) then
    tryHandle (getHeader (transports s) sessionId) req internalError s
  else if negb (present sessionId) && isInitializeRequest (body req) then
    let newSessionId := randomUUID bits in
    let transport := mkTransport newSessionId None in
    tryHandle (Own transport) req internalError
              (mkServer (transports s) (constructed s ++ [transport]))
  else
    (JsonRpcError 400 (-32000)
       "Bad Request: No valid session ID provided or not an initialization request."
       (bodyId (body req)), s).

(** [handleSessionRequest], serving [GET] and [DELETE]. *)
Definition handleSessionRequest (req : Request) (s : Server) : Response * Server :=
  let sessionId := mcpSessionId req in
  if negb (present sessionId) || negb (truthy (getHeader (transports s) sessionId)) then
    (Plain 400 "Invalid or missing session ID", s)
  else
    tryHandle (getHeader (transports s) sessionId) req
              (Plain 500 "Internal Server Error") s.

(** The router. *)
Definition serve (req : Request) (bits : N) (s : Server) : Response * Server :=
  match method req with
  | POST => postMcp req bits s
  | GET | DELETE => handleSessionRequest req s
  end.

End Handlers.

End Server.

(** ** Closed scenarios

    The store instantiated with the codec above, a column that keeps the
    JavaScript date as the driver sends it, and a receiver without state. *)

Module Scenario.

Import EventStore.

(** The driver sends a [DateTime] parameter in units of 1/300 s, rounded to
    the nearest; the column keeps that instant, here counted in those
    units. *)
Definition datetime : Z -> Z := fun ms => ((3 * ms + 5) / 10)%Z.

(** A receiver that accepts every event. *)
Definition accept : @Send Json.value unit := fun _ _ c => (None, c).



Definition connectionError : JsError := mkError "ConnectionError" "Failed to connect".

(** A call at clock reading [now] during which the database answers. *)
Definition answering (now : Z) (bits : N) : Env := mkEnv now bits now None None.

(** Random bits whose first eight hexadecimal digits spell [n]. *)
Definition leading (n : N) : N := N.shiftl n 96.

(** A call during which [pool.connect()] rejects. *)
Definition unreachable (now : Z) (bits : N) : Env :=
  mkEnv now bits now (Some connectionError) None.

(** The scenario of the specification: A, B and C on stream [s1], X on
    stream [s2] in between, ten milliseconds apart. *)
Definition history : list (@Append Json.value) :=
  [ mkAppend "s1" (Json.Str "A") (answering 1730541600000 (leading 1));
    mkAppend "s1" (Json.Str "B") (answering 1730541600010 (leading 2));
    mkAppend "s2" (Json.Str "X") (answering 1730541600020 (leading 3));
    mkAppend "s1" (Json.Str "C") (answering 1730541600030 (leading 4)) ].

(** The same appends one millisecond apart: A and B fall into one unit of
    the column. *)
Definition rapid : list (@Append Json.value) :=
  [ mkAppend "s1" (Json.Str "A") (answering 1730541600000 (leading 1));
    mkAppend "s1" (Json.Str "B") (answering 1730541600001 (leading 2));
    mkAppend "s2" (Json.Str "X") (answering 1730541600002 (leading 3));
    mkAppend "s1" (Json.Str "C") (answering 1730541600003 (leading 4)) ].

(** Two appends to one stream within the same millisecond. *)
Definition burst : list (@Append Json.value) :=
  [ mkAppend "s1" (Json.Str "A") (answering 1730541600000 (leading 1));
    mkAppend "s1" (Json.Str "B") (answering 1730541600000 (leading 2)) ].

(** A table in which the third event of stream [s1] holds damaged text;
    the rows are given as the database holds them, [StoredAt] in the units
    of the column. *)
Definition damaged : list Row :=
  [ mkRow "s1_1000_0000000a" "s1" "1" 1000;
    mkRow "s1_1001_0000000b" "s1" "[2]" 1001;
    mkRow "s1_1002_0000000c" "s1" "{oops" 1002;
    mkRow "s1_1003_0000000d" "s1" "null" 1003 ].

Definition running (t : list Row) : @State Json.value unit := mkState true t [] tt [].

End Scenario.

(** ** Further vocabulary of the event store *)

Module StoreSpec.

Import EventStore.

(** What the [WHERE] clause of the replay query asks of a row: it belongs to
    the stream, and some row of the stream carrying the last event id was
    stored strictly before it. *)
Definition storedAfter (t : list Row) (streamId : StreamId) (lastEventId : EventId)
    (e : Row) : bool :=
  String.eqb (StreamId_ e) streamId
  && existsb (fun le => String.eqb (EventId_ le) lastEventId
                        && String.eqb (StreamId_ le) streamId
                        && (StoredAt le <? StoredAt e)%Z) t.

(** The calls of a history that returned an event id. *)
Fixpoint accepted {M : Type} (ops : list (@Append M)) (results : list (JsError + EventId))
    : list (@Append M) :=
  match ops, results with
  | a :: ops', inr _ :: results' => a :: accepted ops' results'
  | _ :: ops', inl _ :: results' => accepted ops' results'
  | _, _ => []
  end.

End StoreSpec.

(** ** Further vocabulary of the session registry *)

Module RegistrySpec.

Import Server.

(** Every key of [transports] is the session id of the transport stored
    under it, and an id drawn by [randomUUID()]. *)
Definition wellKeyed (s : Server) : Prop :=
  forall k t, transports s !! k = Some t ->
    generator t = k /\ sessionId t = Some k /\ exists bits, k = randomUUID bits.

(** The server when the process starts: [transports = {}]. *)
Definition started : Server := mkServer ∅ [].

Section Run.

Variable isInitializeRequest : Json.value -> bool.
Variable sdk : Transport -> Request -> Handling.


End Run.

(** A closed instance of the SDK: a request is an initialization when its
    [method] member is ["initialize"]; a transport initializes on such a
    request, closes on [DELETE], and otherwise answers. *)
Definition initializeBody : Json.value :=
  Json.Object [("jsonrpc", Json.Str "2.0"); ("id", Json.Number 1);
               ("method", Json.Str "initialize")].

Definition callBody : Json.value :=
  Json.Object [("jsonrpc", Json.Str "2.0"); ("id", Json.Number 2);
               ("method", Json.Str "tools/call")].

Definition isInitialize (b : Json.value) : bool :=
  match b with
  | Json.Object members =>
      match member "method" members with
      | Some (Json.Str name) => String.eqb name "initialize"
      | _ => false
      end
  | _ => false
  end.

Definition answers : Transport -> Request -> Handling :=
  fun _ req =>
    mkHandling (isInitialize (body req))
               (match method req with DELETE => true | _ => false end)
               None true "ok".

End RegistrySpec.

(** ** Closing the pool (persistentEventStore.ts, [closeDbPool]) *)

Module Shutdown.

Import EventStore.

(** The two console lines of [closeDbPool]. *)
Inductive CloseLine : Type := LogPoolClosing | LogPoolClosed.

Section Close.

Context {JSONRPCMessage Client : Type}.

(** [closeDbPool]; [close] is the outcome of [pool.close()], consulted only
    when a pool is cached.  The lines it writes are returned beside the
    state, whose console holds the lines of the store's methods. *)
Definition closeDbPool (close : option JsError) (st : @State JSONRPCMessage Client)
    : (JsError + unit) * @State JSONRPCMessage Client * list CloseLine :=
  if pool st then
    match close with
    | Some err => (inl err, st, [LogPoolClosing])
    | None =>
        (inr tt,
         mkState false (McpEvents st) (console st) (client st) (deliveries st),
         [LogPoolClosing; LogPoolClosed])
    end
  else (inr tt, st, []).

End Close.

End Shutdown.

(** ** Further closed scenarios *)

Module Cases.

Import EventStore Scenario Server RegistrySpec.

(** A process without a cached pool over a table. *)
Definition idle (t : list Row) : @State Json.value unit := mkState false t [] tt [].

(** An append to a stream whose id contains the separator. *)
Definition underscored : @Append Json.value :=
  mkAppend "GET_stream" (Json.Str "A") (answering 1730541600000 (leading 77)).

(** The first request of a client, and the server after it was answered
    with the id drawn from [bits]. *)
Definition initializeRequest : Request := mkRequest POST None initializeBody.

Definition opened (bits : N) : Server :=
  snd (serve isInitialize answers initializeRequest bits started).

End Cases.

(** * Properties of the JSON codec *)

Section JsonFacts.

Import Json.

Local Open Scope string_scope.

Lemma append_cons (c : ascii) (a b : string) : String c a ++ b = String c (a ++ b).
Proof. reflexivity. Qed.

Lemma append_nil (a : string) : "" ++ a = a.
Proof. reflexivity. Qed.

Lemma append_assoc (a b c : string) : (a ++ b) ++ c = a ++ (b ++ c).
Proof.
  induction a as [|x a IH]; [reflexivity |].
  rewrite !append_cons. now rewrite IH.
Qed.

Lemma append_length (a b : string) :
  String.length (a ++ b) = String.length a + String.length b.
Proof.
  induction a as [|x a IH]; [reflexivity |].
  rewrite append_cons. simpl. now rewrite IH.
Qed.

Ltac flatten :=
  repeat (rewrite append_assoc || rewrite append_cons || rewrite append_nil).

(** ** String literals *)

Lemma stringBody_escape (c : ascii) (tail : string) :
  stringBody (escape c ++ tail) = consBody c (stringBody tail).
Proof.
  destruct c as [[] [] [] [] [] [] [] []]; reflexivity.
Qed.

Lemma stringBody_quoteBody (s rest : string) :
  stringBody (quoteBody s ++ String quoteChar rest) = Some (s, rest).
Proof.
  induction s as [|c s IH].
  - reflexivity.
  - change (quoteBody (String c s)) with (escape c ++ quoteBody s).
    rewrite append_assoc, stringBody_escape, IH. reflexivity.
Qed.

(** ** Numbers *)

Lemma spanDigits_uint (d : Decimal.uint) (rest : string) :
  noDigitHead rest ->
  spanDigits (NilEmpty.string_of_uint d ++ rest) = (NilEmpty.string_of_uint d, rest).
Proof.
  intros Hrest. induction d; simpl NilEmpty.string_of_uint;
    rewrite ?append_cons; simpl spanDigits; rewrite ?IHd; try reflexivity.
  destruct rest as [|c rest]; simpl in *; [reflexivity | now rewrite Hrest].
Qed.

Lemma string_of_uint_nonnil (d : Decimal.uint) :
  d <> Decimal.Nil -> NilZero.string_of_uint d = NilEmpty.string_of_uint d.
Proof. destruct d; [congruence | reflexivity ..]. Qed.

Lemma string_of_uint_head (d : Decimal.uint) :
  d <> Decimal.Nil ->
  exists c tail, NilEmpty.string_of_uint d = String c tail /\ isDigit c = true.
Proof. destruct d; [congruence | intros _; simpl; eauto ..]. Qed.

Lemma to_int_cases (n : Z) :
  (exists d, Z.to_int n = Decimal.Pos d /\ d <> Decimal.Nil)
  \/ (exists d, Z.to_int n = Decimal.Neg d /\ d <> Decimal.Nil).
Proof.
  destruct n as [|p|p]; simpl.
  - left. eexists. split; [reflexivity | discriminate].
  - left. eexists. split; [reflexivity | apply DecimalPos.Unsigned.to_uint_nonnil].
  - right. eexists. split; [reflexivity | apply DecimalPos.Unsigned.to_uint_nonnil].
Qed.

Lemma digit_classes (c : ascii) :
  isDigit c = true ->
  isSpace c = false /\ Ascii.eqb c "-"%char = false.
Proof.
  destruct c as [[] [] [] [] [] [] [] []]; intros H; try discriminate H; now split.
Qed.

Lemma nzhead_head (d : Decimal.uint) :
  match Decimal.nzhead d with Decimal.D0 _ => False | _ => True end.
Proof. induction d; simpl; auto. Qed.

(** The decimal digits of a positive number do not start with a zero. *)
Lemma to_uint_head (p : positive) :
  match Pos.to_uint p with Decimal.D0 _ => False | _ => True end.
Proof.
  pose proof (DecimalN.Unsigned.to_of (Pos.to_uint p)) as H.
  pose proof (DecimalN.Unsigned.of_to (N.pos p)) as Hof.
  cbn [N.to_uint] in Hof. rewrite Hof in H. cbn [N.to_uint] in H.
  pose proof (nzhead_head (Pos.to_uint p)) as Hnz.
  unfold Decimal.unorm in H.
  destruct (Decimal.nzhead (Pos.to_uint p)) eqn:Hhead; rewrite H; auto.
  rewrite H in Hof. discriminate Hof.
Qed.

Lemma leadingZero_uint (d : Decimal.uint) :
  match d with Decimal.D0 (Decimal.Nil) => True | Decimal.D0 _ => False | _ => True end ->
  leadingZero (NilEmpty.string_of_uint d) = false
  /\ leadingZero (String "-"%char (NilEmpty.string_of_uint d)) = false.
Proof.
  destruct d as [|d| | | | | | | | |]; try (intros _; now split).
  destruct d; intros H; try contradiction; now split.
Qed.

Lemma to_int_normal (n : Z) (d : Decimal.uint) :
  Z.to_int n = Decimal.Pos d \/ Z.to_int n = Decimal.Neg d ->
  match d with Decimal.D0 (Decimal.Nil) => True | Decimal.D0 _ => False | _ => True end.
Proof.
  destruct n as [|p|p]; simpl; intros [H | H]; inversion H; subst; auto.
  - pose proof (to_uint_head p) as Hp. destruct (Pos.to_uint p); auto; contradiction.
  - pose proof (to_uint_head p) as Hp. destruct (Pos.to_uint p); auto; contradiction.
Qed.

Lemma parseNumber_showInt (n : Z) (rest : string) :
  noDigitHead rest ->
  parseNumber (showInt n ++ rest) = Some (Number n, rest).
Proof.
  intros Hrest. unfold showInt.
  pose proof (DecimalZ.of_to n) as Hof.
  pose proof (to_int_normal n) as Hnormal.
  destruct (to_int_cases n) as [(d & Hd & Hnil) | (d & Hd & Hnil)];
    destruct (leadingZero_uint d (Hnormal d (ltac:(rewrite Hd; auto)))) as [Hlz Hlzm];
    rewrite Hd in *; simpl NilZero.string_of_int;
    rewrite (string_of_uint_nonnil d Hnil).
  - destruct (string_of_uint_head d Hnil) as (c & tail & Hhead & Hc).
    destruct (digit_classes c Hc) as [_ Hminus].
    unfold parseNumber.
    assert (match NilEmpty.string_of_uint d ++ rest with
            | String "-"%char s' =>
                let (ds, rest0) := spanDigits s' in (String "-"%char ds, rest0)
            | _ => spanDigits (NilEmpty.string_of_uint d ++ rest)
            end = spanDigits (NilEmpty.string_of_uint d ++ rest)) as ->.
    { rewrite Hhead, append_cons.
      destruct c as [[] [] [] [] [] [] [] []]; try reflexivity; discriminate Hminus. }
    rewrite (spanDigits_uint d rest Hrest), Hlz.
    pose proof (NilZero.isi (Decimal.Pos d)) as Hisi. simpl in Hisi.
    rewrite (string_of_uint_nonnil d Hnil) in Hisi.
    rewrite Hisi; [now rewrite Hof | congruence | congruence].
  - unfold parseNumber. rewrite append_cons.
    rewrite (spanDigits_uint d rest Hrest), Hlzm.
    pose proof (NilZero.isi (Decimal.Neg d)) as Hisi. simpl NilZero.string_of_int in Hisi.
    rewrite (string_of_uint_nonnil d Hnil) in Hisi.
    rewrite Hisi; [now rewrite Hof | congruence | congruence].
Qed.

(** Number tokens: a leading zero is malformed. *)
Example parse_of_numbers :
  parse "0" = inr (Number 0) /\ parse "-0" = inr (Number 0)
  /\ parse "10" = inr (Number 10) /\ parse " -12 " = inr (Number (-12))
  /\ parse "01" = inl syntaxError /\ parse "-012" = inl syntaxError
  /\ parse "[00]" = inl syntaxError.
Proof. repeat split; reflexivity. Qed.

Lemma showInt_head (n : Z) :
  exists c tail, showInt n = String c tail
                 /\ (isDigit c || Ascii.eqb c "-"%char = true) /\ isSpace c = false.
Proof.
  unfold showInt.
  destruct (to_int_cases n) as [(d & Hd & Hnil) | (d & Hd & Hnil)];
    rewrite Hd; simpl NilZero.string_of_int; rewrite (string_of_uint_nonnil d Hnil).
  - destruct (string_of_uint_head d Hnil) as (c & tail & Hhead & Hc).
    exists c, tail. rewrite Hhead, Hc. destruct (digit_classes c Hc). auto.
  - eexists _, _. split; [reflexivity |]. split; reflexivity.
Qed.

Lemma parseValue_number (fuel : nat) (n : Z) (rest : string) :
  noDigitHead rest ->
  parseValue (S fuel) (showInt n ++ rest) = Some (Number n, rest).
Proof.
  intros Hrest. rewrite <- (parseNumber_showInt n rest Hrest).
  destruct (showInt_head n) as (c & tail & Hhead & Hnum & Hspace).
  rewrite Hhead, append_cons. simpl. rewrite Hspace, Hnum. reflexivity.
Qed.

(** ** Values *)

Lemma stringify_head (v : value) (rest : string) :
  exists c tail, stringify v ++ rest = String c tail /\ opens c.
Proof.
  destruct v as [| [] | n | s | items | members]; simpl stringify;
    try (eexists _, _; split; [reflexivity | repeat split; discriminate]).
  destruct (showInt_head n) as (c & tail & Hhead & Hnum & Hspace).
  exists c, (tail ++ rest). rewrite Hhead, append_cons. split; [reflexivity |].
  repeat split; [exact Hspace | |]; intros ->; discriminate Hnum.
Qed.

Lemma joinItems_cons (x : value) (items : list value) (rest : string) :
  joinItems stringify (x :: items) ++ rest
  = stringify x ++ match items with
                   | [] => rest
                   | _ :: _ => String ","%char (joinItems stringify items ++ rest)
                   end.
Proof.
  destruct items as [|y items]; [reflexivity |].
  change (joinItems stringify (x :: y :: items))
    with (stringify x ++ "," ++ joinItems stringify (y :: items)).
  flatten. reflexivity.
Qed.

Lemma joinMembers_cons (k : string) (x : value) (members : list (string * value))
    (rest : string) :
  joinMembers stringify ((k, x) :: members) ++ rest
  = String quoteChar
      (quoteBody k ++ String quoteChar (String ":"%char
         (stringify x ++ match members with
                         | [] => rest
                         | _ :: _ => String ","%char (joinMembers stringify members ++ rest)
                         end))).
Proof.
  destruct members as [|m members].
  - change (joinMembers stringify [(k, x)]) with (quote k ++ ":" ++ stringify x).
    unfold quote. flatten. reflexivity.
  - change (joinMembers stringify ((k, x) :: m :: members))
      with (quote k ++ ":" ++ stringify x ++ "," ++ joinMembers stringify (m :: members)).
    unfold quote. flatten. reflexivity.
Qed.

Lemma skipSpace_opens (c : ascii) (tail : string) :
  isSpace c = false -> skipSpace (String c tail) = String c tail.
Proof. intros H. simpl. now rewrite H. Qed.

Lemma parseValue_array (fuel : nat) (c : ascii) (tail : string) :
  opens c ->
  parseValue (S fuel) (String "["%char (String c tail))
  = match parseItems fuel (String c tail) with
    | Some (items, rest) => Some (Array items, rest)
    | None => None
    end.
Proof.
  intros (Hspace & Hclose & _).
  change (parseValue (S fuel) (String "["%char (String c tail)))
    with (match skipSpace (String c tail) with
          | String "]"%char rest => Some (Array [], rest)
          | _ => match parseItems fuel (String c tail) with
                 | Some (items, rest) => Some (Array items, rest)
                 | None => None
                 end
          end).
  rewrite (skipSpace_opens c tail Hspace).
  destruct c as [[] [] [] [] [] [] [] []]; try reflexivity. congruence.
Qed.

Lemma parseValue_string (fuel : nat) (tail : string) :
  parseValue (S fuel) (String quoteChar tail)
  = match stringBody tail with
    | Some (body, rest) => Some (Str body, rest)
    | None => None
    end.
Proof. reflexivity. Qed.

Lemma parseValue_object (fuel : nat) (tail : string) :
  parseValue (S fuel) (String "{"%char (String quoteChar tail))
  = match parseMembers fuel (String quoteChar tail) with
    | Some (members, rest) => Some (Object members, rest)
    | None => None
    end.
Proof. reflexivity. Qed.

Lemma parseItems_step (fuel : nat) (s : string) :
  parseItems (S fuel) s
  = match parseValue fuel s with
    | Some (x, rest) =>
        match skipSpace rest with
        | String ","%char rest' =>
            match parseItems fuel rest' with
            | Some (xs, rest'') => Some (x :: xs, rest'')
            | None => None
            end
        | String "]"%char rest' => Some ([x], rest')
        | _ => None
        end
    | None => None
    end.
Proof. reflexivity. Qed.

Lemma parseMembers_step (fuel : nat) (tail : string) :
  parseMembers (S fuel) (String quoteChar tail)
  = match stringBody tail with
    | Some (k, s2) =>
        match skipSpace s2 with
        | String ":"%char s3 =>
            match parseValue fuel s3 with
            | Some (x, rest) =>
                match skipSpace rest with
                | String ","%char rest' =>
                    match parseMembers fuel rest' with
                    | Some (ms, rest'') => Some ((k, x) :: ms, rest'')
                    | None => None
                    end
                | String "}"%char rest' => Some ([(k, x)], rest')
                | _ => None
                end
            | None => None
            end
        | _ => None
        end
    | None => None
    end.
Proof. reflexivity. Qed.

(** With fuel above its size, a value is read back from its text, whatever
    follows, as long as what follows does not start with a digit. *)
Lemma parse_stringify_fuel (fuel : nat) :
  (forall v rest, size v < fuel -> noDigitHead rest ->
     parseValue fuel (stringify v ++ rest) = Some (v, rest))
  /\ (forall x items rest, sizeItems size (x :: items) < fuel ->
        parseItems fuel (joinItems stringify (x :: items) ++ String "]"%char rest)
        = Some (x :: items, rest))
  /\ (forall m members rest, sizeMembers size (m :: members) < fuel ->
        parseMembers fuel (joinMembers stringify (m :: members) ++ String "}"%char rest)
        = Some (m :: members, rest)).
Proof.
  induction fuel as [|fuel (IHv & IHi & IHm)].
  - repeat split; intros; lia.
  - split; [| split].
    + intros v rest Hsize Hrest.
      destruct v as [| [] | n | s | items | members]; try reflexivity.
      * now apply parseValue_number.
      * simpl stringify. unfold quote. flatten.
        now rewrite parseValue_string, stringBody_quoteBody.
      * destruct items as [|x items]; [reflexivity |].
        change (stringify (Array (x :: items)))
          with ("[" ++ joinItems stringify (x :: items) ++ "]").
        flatten.
        assert (exists c tail, joinItems stringify (x :: items) ++ String "]"%char rest
                               = String c tail /\ opens c) as (c & tail & Hhead & Hc).
        { rewrite joinItems_cons. apply stringify_head. }
        rewrite Hhead, (parseValue_array fuel c tail Hc), <- Hhead.
        rewrite IHi; [reflexivity |]. simpl in Hsize |- *. lia.
      * destruct members as [|[k x] members]; [reflexivity |].
        change (stringify (Object ((k, x) :: members)))
          with ("{" ++ joinMembers stringify ((k, x) :: members) ++ "}").
        flatten.
        specialize (IHm (k, x) members rest).
        rewrite joinMembers_cons in *.
        rewrite parseValue_object, IHm; [reflexivity |]. simpl in Hsize |- *. lia.
    + intros x items rest Hsize. rewrite joinItems_cons, parseItems_step.
      simpl in Hsize.
      rewrite IHv; [| lia | destruct items; reflexivity].
      destruct items as [|y items]; [reflexivity |].
      rewrite skipSpace_opens by reflexivity.
      rewrite IHi; [reflexivity |]. simpl in *. lia.
    + intros [k x] members rest Hsize. rewrite joinMembers_cons, parseMembers_step.
      simpl in Hsize.
      rewrite stringBody_quoteBody. rewrite skipSpace_opens by reflexivity.
      rewrite IHv; [| lia | destruct members; reflexivity].
      destruct members as [|m members]; [reflexivity |].
      rewrite skipSpace_opens by reflexivity.
      rewrite IHm; [reflexivity |]. destruct m. simpl in *. lia.
Qed.

(** The text of a value is at least as long as the value is large. *)
Lemma size_le_length_fuel (fuel : nat) :
  (forall v, size v < fuel -> size v <= String.length (stringify v))
  /\ (forall items, sizeItems size items < fuel ->
        sizeItems size items <= S (String.length (joinItems stringify items)))
  /\ (forall members, sizeMembers size members < fuel ->
        sizeMembers size members <= S (String.length (joinMembers stringify members))).
Proof.
  induction fuel as [|fuel (IHv & IHi & IHm)].
  - repeat split; intros; lia.
  - split; [| split].
    + intros v Hsize.
      destruct v as [| [] | n | s | items | members]; simpl; try lia.
      * destruct (showInt_head n) as (c & tail & -> & _). simpl. lia.
      * simpl in Hsize. specialize (IHi items).
        rewrite !append_length. simpl String.length. lia.
      * simpl in Hsize. specialize (IHm members).
        rewrite !append_length. simpl String.length. lia.
    + intros [|x items] Hsize; [simpl; lia |].
      simpl in Hsize. pose proof (IHv x) as Hx. pose proof (IHi items) as Hi.
      destruct items as [|y items].
      * simpl. lia.
      * change (joinItems stringify (x :: y :: items))
          with (stringify x ++ "," ++ joinItems stringify (y :: items)).
        rewrite !append_length. change (String.length ",") with 1.
        change (sizeItems size (x :: y :: items))
          with (S (size x + sizeItems size (y :: items))). lia.
    + intros [|[k x] members] Hsize; [simpl; lia |].
      simpl in Hsize. pose proof (IHv x) as Hx. pose proof (IHm members) as Hm.
      destruct members as [|m members].
      * simpl. rewrite !append_length. simpl. lia.
      * change (joinMembers stringify ((k, x) :: m :: members))
          with (quote k ++ ":" ++ stringify x ++ "," ++ joinMembers stringify (m :: members)).
        rewrite !append_length. change (String.length ",") with 1.
        change (sizeMembers size ((k, x) :: m :: members))
          with (S (size x + sizeMembers size (m :: members))). lia.
Qed.

(** [JSON.parse] undoes [JSON.stringify]. *)
Lemma parse_stringify (v : value) : parse (stringify v) = inr v.
Proof.
  unfold parse.
  destruct (size_le_length_fuel (S (size v))) as [Hlen _].
  specialize (Hlen v (Nat.lt_succ_diag_r _)).
  destruct (parse_stringify_fuel (S (String.length (stringify v)))) as [Hparse _].
  specialize (Hparse v "").
  replace (stringify v ++ "") with (stringify v) in Hparse
    by (clear; induction (stringify v) as [|c s IH]; [reflexivity |];
        rewrite append_cons; now rewrite <- IH).
  rewrite Hparse; [reflexivity | lia | exact I].
Qed.

End JsonFacts.

(** * Properties of the event store *)

Import EventStore.

(** ** The event-id encoding *)

Lemma split_first_prefix (s rest : string) :
  contains "_"%char s = false ->
  first (split "_"%char (s ++ String "_"%char rest)) = s.
Proof.
  induction s as [|c s IH]; simpl; intros H.
  - reflexivity.
  - apply orb_false_iff in H as [Hc Hs].
    rewrite Hc. specialize (IH Hs).
    destruct (split "_"%char (s ++ String "_"%char rest)) as [|w ws]; simpl in *.
    + now subst.
    + now subst.
Qed.

Lemma split_first_no_separator (s : string) :
  contains "_"%char (first (split "_"%char s)) = false.
Proof.
  induction s as [|c s IH]; simpl.
  - reflexivity.
  - destruct (Ascii.eqb c "_"%char) eqn:Hc; simpl.
    + reflexivity.
    + destruct (split "_"%char s) as [|w ws]; simpl in *.
      * now rewrite Hc.
      * now rewrite Hc.
Qed.

Lemma generateEventId_shape (streamId : StreamId) (now : Z) (bits : N) :
  exists rest, generateEventId streamId now bits = (streamId ++ String "_"%char rest)%string.
Proof. unfold generateEventId. eexists. reflexivity. Qed.

(** C2, as amended: for every stream id that does not contain the separator
    [_], extracting the stream id from an event id generated for it gives the
    stream id back. *)
Theorem extract_generated_stream_id (streamId : StreamId) (now : Z) (bits : N) :
  contains "_"%char streamId = false ->
  extractStreamId (generateEventId streamId now bits) = streamId.
Proof.
  intros H. destruct (generateEventId_shape streamId now bits) as [rest ->].
  unfold extractStreamId. now apply split_first_prefix.
Qed.

Lemma extract_generated_stream_id_witness :
  contains "_"%char "6f1c2a9e-0b7d-4c3a-9e21-5d8f0a4b7c66" = false
  /\ extractStreamId (generateEventId "6f1c2a9e-0b7d-4c3a-9e21-5d8f0a4b7c66" 1730541600000 77)
     = "6f1c2a9e-0b7d-4c3a-9e21-5d8f0a4b7c66".
Proof.
  split; [reflexivity | apply extract_generated_stream_id; reflexivity].
Defined.

(** The extraction gives the stream id back only when it has no separator:
    what is extracted never contains one. *)
Lemma extract_generated_only_without_separator (streamId : StreamId) (now : Z) (bits : N) :
  extractStreamId (generateEventId streamId now bits) = streamId ->
  contains "_"%char streamId = false.
Proof.
  intros H. rewrite <- H. apply split_first_no_separator.
Qed.

(** C2 as stated fails: the store accepts the stream id [a_b], and the event
    id generated for it yields the stream id [a]. *)
Lemma extract_generated_stream_id_counterexample :
  extractStreamId (generateEventId "a_b" 1730541600000 77) = "a"
  /\ extractStreamId (generateEventId "a_b" 1730541600000 77) <> "a_b".
Proof. split; [reflexivity | discriminate]. Qed.

Section StoreFacts.

Context {JSONRPCMessage : Type}.
Variable JSON_stringify : JSONRPCMessage -> string.
Variable JSON_parse : string -> JsError + JSONRPCMessage.
Variable sqlDateTime : Z -> Z.
Context {Client : Type}.

Abbreviation State := (@State JSONRPCMessage Client).
Abbreviation Send := (@Send JSONRPCMessage Client).
Abbreviation Delivery := (@Delivery JSONRPCMessage).

Implicit Types (st : State) (send : Send) (env : Env) (rows : list RecordsetRow).

Ltac run := unfold bind, try_catch, log, setPool, ret, throw; simpl.

(** ** The connection pool *)

Lemma getDbPool_reachable env st :
  pool st = true \/ connect env = None ->
  exists lines,
    getDbPool env st
    = (inr tt, mkState true (McpEvents st) (console st ++ lines) (client st) (deliveries st)).
Proof.
  intros H. unfold getDbPool. destruct st as [p t c cl ds]; simpl in *.
  destruct p.
  - exists []. run. now rewrite app_nil_r.
  - destruct H as [H | H]; [discriminate |]. rewrite H.
    exists [LogPoolCreating; LogPoolConnected]. run. now rewrite <- app_assoc.
Qed.

Lemma getDbPool_unreachable env st err :
  pool st = false -> connect env = Some err ->
  getDbPool env st
  = (inl err, mkState false (McpEvents st)
                      (console st ++ [LogPoolCreating; ErrConnectionFailed err])
                      (client st) (deliveries st)).
Proof.
  intros Hp Hc. unfold getDbPool. rewrite Hp, Hc. run. now rewrite <- app_assoc.
Qed.

Lemma getDbPool_cases env st :
  (pool st = true \/ connect env = None)
  \/ (exists err, pool st = false /\ connect env = Some err).
Proof.
  destruct (pool st); [left; now left |].
  destruct (connect env) as [err|]; [right; now exists err | left; now right].
Qed.

(** ** The replay loop *)

(** One iteration: a row whose text does not parse is logged and skipped; a
    row that parses is handed to [send], and counted when [send] resolves. *)
Lemma replayRows_cons send row rows n st :
  replayRows JSON_parse send (row :: rows) n st
  = match JSON_parse (rMessageJson row) with
    | inl err =>
        replayRows JSON_parse send rows n
          (mkState (pool st) (McpEvents st)
                   (console st ++ [ErrParsing (rEventId row) err])
                   (client st) (deliveries st))
    | inr m =>
        let (r, c) := send (rEventId row) m (client st) in
        let ds := deliveries st ++ [mkDelivery (rEventId row) m r] in
        match r with
        | Some err =>
            replayRows JSON_parse send rows n
              (mkState (pool st) (McpEvents st)
                       (console st ++ [ErrParsing (rEventId row) err]) c ds)
        | None =>
            replayRows JSON_parse send rows (S n)
              (mkState (pool st) (McpEvents st) (console st) c ds)
        end
    end.
Proof.
  simpl. unfold bind at 1. unfold try_catch, jsonParse.
  destruct (JSON_parse (rMessageJson row)) as [err | m]; run.
  - reflexivity.
  - unfold callSend. destruct (send (rEventId row) m (client st)) as [[err|] c]; reflexivity.
Qed.

Lemma deliverAll_payload send (events : list (EventId * JSONRPCMessage)) (c : Client) :
  List.map payload (fst (deliverAll send events c)) = events.
Proof.
  revert c. induction events as [|[eventId m] events IH]; intros c; simpl; [reflexivity |].
  destruct (send eventId m c) as [r c1]. specialize (IH c1).
  destruct (deliverAll send events c1) as [ds c2]. simpl in *. now rewrite IH.
Qed.

(** The loop never throws; it leaves the pool and the table alone, calls
    [send] for exactly the rows that parse, in order and one after the other,
    counts the calls that resolved, and logs every parse error and every
    rejection. *)
Lemma replayRows_spec send rows :
  forall n st, exists c lines ds,
    replayRows JSON_parse send rows n st
    = (inr (n + length (List.filter resolved ds)),
       mkState (pool st) (McpEvents st) (console st ++ lines) c (deliveries st ++ ds))
    /\ List.map payload ds = parsed JSON_parse rows
    /\ (forall row err, In row rows -> JSON_parse (rMessageJson row) = inl err ->
        In (ErrParsing (rEventId row) err) lines)
    /\ (forall d err, In d ds -> dOutcome d = Some err ->
        In (ErrParsing (dEventId d) err) lines)
    /\ deliverAll send (parsed JSON_parse rows) (client st) = (ds, c).
Proof.
  induction rows as [|row rows IH]; intros n st.
  - exists (client st), [], []. simpl. unfold ret.
    rewrite Nat.add_0_r, !app_nil_r. destruct st; repeat split; intros; contradiction.
  - rewrite replayRows_cons. simpl parsed.
    destruct (JSON_parse (rMessageJson row)) as [err | m] eqn:Hparse.
    + edestruct IH as (c & lines & ds & -> & Hds & Hbad & Hrej & Hall). simpl.
      exists c, (ErrParsing (rEventId row) err :: lines), ds.
      split; [now rewrite <- app_assoc |]. split; [exact Hds |]. split; [| split].
      * intros row' err' [<- | Hin] Hp; [left; congruence | right; eauto].
      * intros d err' Hin Hd. right; eauto.
      * exact Hall.
    + simpl deliverAll.
      destruct (send (rEventId row) m (client st)) as [[err|] c0]; simpl.
      * edestruct IH as (c & lines & ds & -> & Hds & Hbad & Hrej & Hall). simpl.
        simpl in Hall. rewrite Hall.
        exists c, (ErrParsing (rEventId row) err :: lines),
               (mkDelivery (rEventId row) m (Some err) :: ds).
        split; [now rewrite <- !app_assoc |].
        split; [simpl; unfold payload at 1; simpl; now rewrite Hds |].
        split; [| split].
        -- intros row' err' [<- | Hin] Hp; [congruence | right; eauto].
        -- intros d err' [<- | Hin] Hd; [left; simpl in *; congruence | right; eauto].
        -- reflexivity.
      * edestruct IH as (c & lines & ds & -> & Hds & Hbad & Hrej & Hall). simpl.
        simpl in Hall. rewrite Hall.
        exists c, lines, (mkDelivery (rEventId row) m None :: ds).
        split; [rewrite <- !app_assoc; simpl; unfold resolved at 2; simpl;
                now rewrite Nat.add_succ_r |].
        split; [simpl; unfold payload at 1; simpl; now rewrite Hds |].
        split; [| split].
        -- intros row' err' [<- | Hin] Hp; [congruence | eauto].
        -- intros d err' [<- | Hin] Hd; [discriminate | eauto].
        -- reflexivity.
Qed.


Lemma parsed_app rows1 rows2 :
  parsed JSON_parse (rows1 ++ rows2) = parsed JSON_parse rows1 ++ parsed JSON_parse rows2.
Proof.
  induction rows1 as [|row rows1 IH]; simpl; [reflexivity |].
  destruct (JSON_parse (rMessageJson row)); simpl; now rewrite IH.
Qed.

(** ** [replayEventsAfter] *)

Lemma extract_nonempty (lastEventId : EventId) :
  falsy (extractStreamId lastEventId) = false -> falsy lastEventId = false.
Proof. now destruct lastEventId. Qed.

(** When the stream id can be extracted and the database answers, the call
    is the loop over the selected rows followed by the summary line. *)
Lemma replayEventsAfter_reachable lastEventId send env st rows :
  falsy (extractStreamId lastEventId) = false ->
  reachable env st ->
  selectEventsAfter (McpEvents st) (extractStreamId lastEventId) lastEventId = inr rows ->
  exists lines0,
    replayEventsAfter JSON_parse lastEventId send env st
    = match replayRows JSON_parse send rows 0
              (mkState true (McpEvents st) (console st ++ lines0) (client st)
                       (deliveries st)) with
      | (inr n, st1) =>
          (inr (extractStreamId lastEventId),
           mkState (pool st1) (McpEvents st1)
                   (console st1 ++ [LogReplayed n (extractStreamId lastEventId)])
                   (client st1) (deliveries st1))
      | (inl err, st1) =>
          (inl err,
           mkState (pool st1) (McpEvents st1)
                   (console st1 ++ [ErrReplaying (extractStreamId lastEventId) err])
                   (client st1) (deliveries st1))
      end.
Proof.
  intros Hsid [Hpool Hfault] Hsel.
  unfold replayEventsAfter. rewrite (extract_nonempty _ Hsid), Hsid.
  destruct (getDbPool_reachable env
              (mkState (pool st) (McpEvents st)
                 (console st ++ [LogReplaying (extractStreamId lastEventId) lastEventId])
                 (client st) (deliveries st)) Hpool) as [lines Hdb].
  simpl in Hdb.
  exists (LogReplaying (extractStreamId lastEventId) lastEventId :: lines).
  unfold bind at 1. unfold log at 1. simpl.
  unfold try_catch. unfold bind at 1. rewrite Hdb.
  unfold bind at 1. unfold querySelect. simpl. rewrite Hfault, Hsel.
  unfold ret at 1. rewrite <- app_assoc. simpl.
  set (st0 := mkState true (McpEvents st) _ (client st) (deliveries st)).
  unfold bind at 1.
  replace (match rows with [] => ret 0 | _ :: _ => replayRows JSON_parse send rows 0 end st0)
    with (replayRows JSON_parse send rows 0 st0) by (now destruct rows).
  destruct (replayRows JSON_parse send rows 0 st0) as [[err | n] st1]; run; reflexivity.
Qed.

Lemma filter_none {A} (f : A -> bool) (l : list A) :
  (forall x, In x l -> f x = false) -> List.filter f l = [].
Proof.
  induction l as [|x l IH]; simpl; intros H; [reflexivity |].
  rewrite (H x (or_introl eq_refl)). apply IH. intros y Hy. apply H. now right.
Qed.

Lemma selectEventsAfter_unknown (t : list Row) (streamId : StreamId) (lastEventId : EventId) :
  ~ (exists row, In row t /\ EventId_ row = lastEventId /\ StreamId_ row = streamId) ->
  selectEventsAfter t streamId lastEventId = inr [].
Proof.
  intros H. unfold selectEventsAfter, referenceStoredAt.
  rewrite filter_none; [reflexivity |].
  intros row Hin. apply andb_false_iff.
  destruct (String.eqb_spec (EventId_ row) lastEventId) as [He | He]; [| now left].
  destruct (String.eqb_spec (StreamId_ row) streamId) as [Hs | Hs]; [| now right].
  exfalso. apply H. now exists row.
Qed.

(** When the pool cannot be acquired, or the driver rejects the query, the
    call logs and re-throws that error, and [send] is not called. *)
Lemma replayEventsAfter_unreachable lastEventId send env st err :
  falsy (extractStreamId lastEventId) = false ->
  pool st = false -> connect env = Some err ->
  replayEventsAfter JSON_parse lastEventId send env st
  = (inl err,
     mkState false (McpEvents st)
       (console st ++ [LogReplaying (extractStreamId lastEventId) lastEventId;
                       LogPoolCreating; ErrConnectionFailed err;
                       ErrReplaying (extractStreamId lastEventId) err])
       (client st) (deliveries st)).
Proof.
  intros Hsid Hp Hc.
  unfold replayEventsAfter. rewrite (extract_nonempty _ Hsid), Hsid.
  pose proof (getDbPool_unreachable env
                (mkState (pool st) (McpEvents st)
                   (console st ++ [LogReplaying (extractStreamId lastEventId) lastEventId])
                   (client st) (deliveries st)) err Hp Hc) as Hdb.
  simpl in Hdb.
  unfold bind at 1. unfold log at 1. simpl.
  unfold try_catch. unfold bind at 1. rewrite Hdb. run.
  now rewrite <- !app_assoc.
Qed.

Lemma replayEventsAfter_fault lastEventId send env st err :
  falsy (extractStreamId lastEventId) = false ->
  pool st = true \/ connect env = None -> fault env = Some err ->
  exists lines,
    replayEventsAfter JSON_parse lastEventId send env st
    = (inl err,
       mkState true (McpEvents st) (console st ++ lines) (client st) (deliveries st)).
Proof.
  intros Hsid Hpool Hfault.
  unfold replayEventsAfter. rewrite (extract_nonempty _ Hsid), Hsid.
  destruct (getDbPool_reachable env
              (mkState (pool st) (McpEvents st)
                 (console st ++ [LogReplaying (extractStreamId lastEventId) lastEventId])
                 (client st) (deliveries st)) Hpool) as [lines Hdb].
  simpl in Hdb.
  unfold bind at 1. unfold log at 1. simpl.
  unfold try_catch. unfold bind at 1. rewrite Hdb.
  unfold bind at 1. unfold querySelect. simpl. rewrite Hfault. run.
  eexists. rewrite <- !app_assoc. reflexivity.
Qed.

(** C4: for a last event id whose stream id can be extracted but which no
    stored event of that stream carries, [replayEventsAfter] never calls
    [send] and leaves the table and the receiver as they were; when the
    database answers it returns the extracted stream id, and the only errors
    it can throw are those of the database (the refused connection or the
    rejected query), never one on account of the unknown id. *)
Theorem replay_unknown_event lastEventId send env st :
  falsy (extractStreamId lastEventId) = false ->
  ~ (exists row, In row (McpEvents st) /\ EventId_ row = lastEventId
                 /\ StreamId_ row = extractStreamId lastEventId) ->
  exists outcome p lines,
    replayEventsAfter JSON_parse lastEventId send env st
    = (outcome,
       mkState p (McpEvents st) (console st ++ lines) (client st) (deliveries st))
    /\ (reachable env st -> outcome = inr (extractStreamId lastEventId))
    /\ (forall err, outcome = inl err ->
        (pool st = false /\ connect env = Some err) \/ fault env = Some err).
Proof.
  intros Hsid Hunknown.
  destruct (getDbPool_cases env st) as [Hpool | (err & Hp & Hc)].
  - destruct (fault env) as [err|] eqn:Hfault.
    + destruct (replayEventsAfter_fault lastEventId send env st err Hsid Hpool Hfault)
        as [lines ->].
      exists (inl err), true, lines. split; [reflexivity |]. split.
      * intros [_ Hnone]. congruence.
      * intros err' Herr. right. congruence.
    + destruct (replayEventsAfter_reachable lastEventId send env st []
                  Hsid (conj Hpool Hfault) (selectEventsAfter_unknown _ _ _ Hunknown))
        as [lines0 ->].
      simpl. unfold ret. simpl.
      exists (inr (extractStreamId lastEventId)), true,
             (lines0 ++ [LogReplayed 0 (extractStreamId lastEventId)]).
      split; [now rewrite app_assoc |]. split; [reflexivity | discriminate].
  - rewrite (replayEventsAfter_unreachable lastEventId send env st err Hsid Hp Hc).
    eexists (inl err), false, _. split; [reflexivity |]. split.
    + intros [[Hpool | Hconn] _]; congruence.
    + intros err' Herr. left. split; [exact Hp | congruence].
Qed.

(** C5: when one of the selected rows holds text that does not parse,
    [replayEventsAfter] does not throw; it logs the parse error for that row,
    skips it, and calls [send], one awaited call after the other, for exactly
    the parseable rows before it and after it, in order: the calls recorded
    and the receiver at the end are those of [deliverAll] over these rows.
    The table is left as it was. *)
Theorem replay_skips_corrupt_row lastEventId send env st pre bad post err :
  falsy (extractStreamId lastEventId) = false ->
  reachable env st ->
  selectEventsAfter (McpEvents st) (extractStreamId lastEventId) lastEventId
    = inr (pre ++ bad :: post) ->
  JSON_parse (rMessageJson bad) = inl err ->
  exists st' ds,
    replayEventsAfter JSON_parse lastEventId send env st
    = (inr (extractStreamId lastEventId), st')
    /\ McpEvents st' = McpEvents st
    /\ deliveries st' = deliveries st ++ ds
    /\ deliverAll send (parsed JSON_parse pre ++ parsed JSON_parse post) (client st)
       = (ds, client st')
    /\ List.map payload ds = parsed JSON_parse pre ++ parsed JSON_parse post
    /\ In (ErrParsing (rEventId bad) err) (console st').
Proof.
  intros Hsid Hdb Hsel Hbad.
  destruct (replayEventsAfter_reachable lastEventId send env st _ Hsid Hdb Hsel)
    as [lines0 ->].
  edestruct (replayRows_spec send (pre ++ bad :: post) 0)
    as (c & lines & ds & -> & Hds & Hlog & _ & Hcalls).
  assert (parsed JSON_parse (pre ++ bad :: post)
          = parsed JSON_parse pre ++ parsed JSON_parse post) as Hskip.
  { rewrite parsed_app. simpl. now rewrite Hbad. }
  rewrite Hskip in Hds, Hcalls. simpl in Hcalls.
  simpl. eexists. exists ds. split; [reflexivity |]. simpl.
  split; [reflexivity |]. split; [reflexivity |]. split; [exact Hcalls |].
  split; [exact Hds |].
  apply in_or_app. left. apply in_or_app. right.
  apply (Hlog bad err); [apply in_or_app; right; now left | exact Hbad].
Qed.


(** ** [storeEvent] *)


Lemma insertRow_inr (t t' : list Row) (r : Row) :
  insertRow t r = inr t' ->
  t' = t ++ [r] /\ (forall x, In x t -> EventId_ x <> EventId_ r).
Proof.
  unfold insertRow.
  destruct (existsb (fun x => String.eqb (EventId_ x) (EventId_ r)) t) eqn:He; [discriminate |].
  intros H. inversion H. split; [reflexivity |].
  intros x Hin Heq.
  assert (existsb (fun x => String.eqb (EventId_ x) (EventId_ r)) t = true) as Ht.
  { apply existsb_exists. exists x. split; [exact Hin |]. now apply String.eqb_eq. }
  congruence.
Qed.

(** The outcomes of [storeEvent], for use below. *)
Lemma storeEvent_cases streamId message env st :
  let eventId := generateEventId streamId (Date_now env) (uuid_bits env) in
  let row := mkRow eventId streamId (JSON_stringify message) (sqlDateTime (new_Date env)) in
  match storeEvent JSON_stringify sqlDateTime streamId message env st with
  | (inl err, st') =>
      ((pool st = false /\ connect env = Some err)
       \/ ((pool st = true \/ connect env = None) /\ fault env = Some err)
       \/ (reachable env st /\ insertRow (McpEvents st) row = inl err))
      /\ McpEvents st' = McpEvents st
      /\ In (ErrStoring eventId err) (console st')
      /\ client st' = client st /\ deliveries st' = deliveries st
  | (inr id, st') =>
      id = eventId /\ reachable env st
      /\ insertRow (McpEvents st) row = inr (McpEvents st')
      /\ pool st' = true
      /\ client st' = client st /\ deliveries st' = deliveries st
  end.
Proof.
  intros eventId row. unfold storeEvent. fold eventId. fold row.
  unfold try_catch. unfold bind at 1.
  destruct (getDbPool_cases env st) as [Hpool | (err & Hp & Hc)].
  - destruct (getDbPool_reachable env st Hpool) as [lines ->].
    unfold bind at 1. unfold queryInsert. simpl.
    destruct (fault env) as [err|] eqn:Hfault.
    + run. repeat split; auto. apply in_or_app. right. now left.
    + destruct (insertRow (McpEvents st) row) as [err | t] eqn:Hins.
      * run. repeat split; auto.
        -- right. right. now repeat split.
        -- apply in_or_app. right. now left.
      * run. now repeat split.
  - rewrite (getDbPool_unreachable env st err Hp Hc). run.
    repeat split; auto. apply in_or_app. right. now left.
Qed.

(** A successful [storeEvent], as an equation on the table. *)
Lemma storeEvent_stored a st id st' :
  storeEvent JSON_stringify sqlDateTime (aStream a) (aMessage a) (aEnv a) st = (inr id, st') ->
  id = eventIdOf a
  /\ McpEvents st' = McpEvents st ++ [rowOf JSON_stringify sqlDateTime a]
  /\ (forall x, In x (McpEvents st) -> EventId_ x <> eventIdOf a)
  /\ pool st' = true /\ client st' = client st /\ deliveries st' = deliveries st.
Proof.
  intros H.
  pose proof (storeEvent_cases (aStream a) (aMessage a) (aEnv a) st) as Hout.
  simpl in Hout. rewrite H in Hout.
  destruct Hout as (-> & _ & Hins & Hp & Hc & Hd).
  apply insertRow_inr in Hins as [Ht Hfresh].
  repeat split; auto.
Qed.

(** ** What the replay query selects *)

Lemma In_insertByStoredAt (r x : Row) (l : list Row) :
  In x (insertByStoredAt r l) <-> x = r \/ In x l.
Proof.
  induction l as [|y l IH]; simpl.
  - intuition.
  - destruct (StoredAt r <=? StoredAt y)%Z; simpl; [intuition |].
    rewrite IH. intuition.
Qed.

Lemma In_orderByStoredAt (x : Row) (l : list Row) :
  In x (orderByStoredAt l) <-> In x l.
Proof.
  induction l as [|y l IH]; simpl; [reflexivity |].
  rewrite In_insertByStoredAt, IH. intuition.
Qed.



Lemma In_parsed rows id m :
  In (id, m) (parsed JSON_parse rows) ->
  exists r, In r rows /\ rEventId r = id /\ JSON_parse (rMessageJson r) = inr m.
Proof.
  induction rows as [|x rows IH]; simpl; [contradiction |].
  destruct (JSON_parse (rMessageJson x)) as [err | m'] eqn:Hp.
  - intros Hin. destruct (IH Hin) as (r & Hr & Hid & Hm). exists r. auto.
  - intros [Heq | Hin].
    + inversion Heq; subst. exists x. auto.
    + destruct (IH Hin) as (r & Hr & Hid & Hm). exists r. auto.
Qed.

Lemma NoDup_map_injective {A B} (f : A -> B) (l : list A) (x y : A) :
  List.NoDup (List.map f l) -> In x l -> In y l -> f x = f y -> x = y.
Proof.
  induction l as [|z l IH]; simpl; [contradiction |].
  intros Hnd Hx Hy Hf. inversion Hnd as [|? ? Hnotin Hnd']; subst.
  destruct Hx as [-> | Hx], Hy as [-> | Hy]; auto.
  - exfalso. apply Hnotin. rewrite Hf. now apply in_map.
  - exfalso. apply Hnotin. rewrite <- Hf. now apply in_map.
Qed.


(** ** Histories of appends *)

Lemma appendAll_stored (ops : list (@Append JSONRPCMessage)) :
  forall st,
    fst (appendAll JSON_stringify sqlDateTime ops st)
      = List.map (fun a => inr (eventIdOf a)) ops ->
    let st' := snd (appendAll JSON_stringify sqlDateTime ops st) in
    McpEvents st' = McpEvents st ++ List.map (rowOf JSON_stringify sqlDateTime) ops
    /\ (forall x a, In x (McpEvents st) -> In a ops -> EventId_ x <> eventIdOf a)
    /\ List.NoDup (List.map eventIdOf ops)
    /\ (ops <> [] -> pool st' = true)
    /\ deliveries st' = deliveries st.
Proof.
  induction ops as [|a ops IH]; intros st H; simpl in *.
  - rewrite app_nil_r. repeat split; auto; try contradiction; constructor.
  - destruct (storeEvent JSON_stringify sqlDateTime (aStream a) (aMessage a) (aEnv a) st)
      as [r st1] eqn:Hstore.
    destruct (appendAll JSON_stringify sqlDateTime ops st1) as [rs st2] eqn:Hrest.
    simpl in *. inversion H as [[Hr Hrs]]. subst r.
    destruct (storeEvent_stored a st _ st1 Hstore) as (_ & Ht1 & Hfresh & Hp1 & _ & Hd1).
    specialize (IH st1). rewrite Hrest in IH. simpl in IH.
    destruct (IH Hrs) as (Ht2 & Hfresh2 & Hnd & Hp2 & Hd2).
    split; [rewrite Ht2, Ht1, <- app_assoc; reflexivity |].
    split.
    { intros x b Hx [<- | Hb]; [now apply Hfresh |].
      apply Hfresh2; [rewrite Ht1; apply in_or_app; now left | exact Hb]. }
    split.
    { constructor; [| exact Hnd].
      intros Hin. apply in_map_iff in Hin as (b & Hb & Hin).
      apply (Hfresh2 (rowOf JSON_stringify sqlDateTime a) b); auto.
      rewrite Ht1. apply in_or_app. right. now left. }
    split; [| congruence].
    intros _. destruct ops as [|b ops]; [| apply Hp2; discriminate].
    simpl in Hrest. inversion Hrest. now subst.
Qed.

Lemma filter_unique {A} (f : A -> string) (g : A -> bool) (l1 l2 : list A) (x : A) :
  List.NoDup (List.map f (l1 ++ x :: l2)) -> g x = true ->
  List.filter (fun y => String.eqb (f y) (f x) && g y) (l1 ++ x :: l2) = [x].
Proof.
  intros Hnd Hg.
  assert (forall y, In y l1 \/ In y l2 -> String.eqb (f y) (f x) && g y = false) as Hother.
  { intros y Hy. apply andb_false_iff. left. apply String.eqb_neq. intros Heq.
    rewrite map_app in Hnd. simpl in Hnd. apply NoDup_remove_2 in Hnd.
    apply Hnd. rewrite <- Heq. apply in_or_app.
    destruct Hy as [Hy | Hy]; [left | right]; now apply in_map. }
  rewrite List.filter_app. simpl. rewrite String.eqb_refl, Hg. simpl.
  rewrite !filter_none; auto.
Qed.

Lemma StronglySorted_middle {A} (R : A -> A -> Prop) (l1 l2 : list A) (x : A) :
  StronglySorted R (l1 ++ x :: l2) ->
  List.Forall (fun y => R y x) l1 /\ List.Forall (R x) l2 /\ StronglySorted R l2.
Proof.
  induction l1 as [|y l1 IH]; simpl; intros H.
  - apply StronglySorted_inv in H as [Hs Hf]. auto.
  - apply StronglySorted_inv in H as [Hs Hf].
    destruct (IH Hs) as (H1 & H2 & H3). repeat split; auto.
    constructor; [| exact H1].
    rewrite List.Forall_forall in Hf. apply Hf. apply in_or_app. right. now left.
Qed.

Lemma insertByStoredAt_least (r : Row) (l : list Row) :
  List.Forall (fun y => (StoredAt r < StoredAt y)%Z) l -> insertByStoredAt r l = r :: l.
Proof.
  destruct l as [|y l]; simpl; [reflexivity |].
  intros H. inversion H; subst.
  destruct (Z.leb_spec (StoredAt r) (StoredAt y)); [reflexivity | lia].
Qed.

(** Rows already in strictly ascending [StoredAt] order are left in place. *)
Lemma orderByStoredAt_sorted (l : list Row) :
  StronglySorted (fun x y => (StoredAt x < StoredAt y)%Z) l -> orderByStoredAt l = l.
Proof.
  induction l as [|r l IH]; simpl; intros H; [reflexivity |].
  apply StronglySorted_inv in H as [Hs Hf].
  rewrite (IH Hs). now apply insertByStoredAt_least.
Qed.

Lemma StronglySorted_map {A B} (f : A -> B) (R : B -> B -> Prop) (l : list A) :
  StronglySorted R (List.map f l) -> StronglySorted (fun x y => R (f x) (f y)) l.
Proof.
  induction l as [|x l IH]; simpl; intros H; constructor;
    apply StronglySorted_inv in H as [Hs Hf]; auto.
  rewrite List.Forall_forall in *. intros y Hy. apply Hf. now apply in_map.
Qed.

(** ** Replay after the [k]-th append *)

Abbreviation recordOf :=
  (fun b : @Append JSONRPCMessage => mkRecordsetRow (eventIdOf b) (JSON_stringify (aMessage b))).

Lemma filter_later (s : StreamId) (ref : Z) (l : list (@Append JSONRPCMessage)) :
  List.Forall (fun t => (ref < t)%Z) (List.map (storedAtOf sqlDateTime) (List.filter (onStream s) l)) ->
  List.filter (fun e => String.eqb (StreamId_ e) s && (ref <? StoredAt e)%Z)
              (List.map (rowOf JSON_stringify sqlDateTime) l)
  = List.map (rowOf JSON_stringify sqlDateTime) (List.filter (onStream s) l).
Proof.
  induction l as [|b l IH]; simpl; intros H; [reflexivity |].
  change (String.eqb (aStream b) s) with (onStream s b).
  destruct (onStream s b); simpl in *.
  - inversion H; subst. destruct (Z.ltb_spec ref (storedAtOf sqlDateTime b)); [| lia].
    now rewrite IH.
  - now apply IH.
Qed.

Lemma filter_earlier (s : StreamId) (ref : Z) (l : list (@Append JSONRPCMessage)) :
  List.Forall (fun t => (t <= ref)%Z) (List.map (storedAtOf sqlDateTime) (List.filter (onStream s) l)) ->
  List.filter (fun e => String.eqb (StreamId_ e) s && (ref <? StoredAt e)%Z)
              (List.map (rowOf JSON_stringify sqlDateTime) l)
  = [].
Proof.
  induction l as [|b l IH]; simpl; intros H; [reflexivity |].
  change (String.eqb (aStream b) s) with (onStream s b).
  destruct (onStream s b); simpl in *.
  - inversion H; subst. destruct (Z.ltb_spec ref (storedAtOf sqlDateTime b)); [lia |].
    now apply IH.
  - now apply IH.
Qed.

(** On a table written by a history in which the events of the stream have
    strictly increasing [StoredAt], the replay query after an event of the
    history selects the later events of its stream, in write order. *)
Lemma selectEventsAfter_history (l1 l2 : list (@Append JSONRPCMessage)) (a : Append) :
  List.NoDup (List.map eventIdOf (l1 ++ a :: l2)) ->
  StronglySorted Z.lt
    (List.map (storedAtOf sqlDateTime) (List.filter (onStream (aStream a)) (l1 ++ a :: l2))) ->
  selectEventsAfter (List.map (rowOf JSON_stringify sqlDateTime) (l1 ++ a :: l2))
                    (aStream a) (eventIdOf a)
  = inr (List.map recordOf (List.filter (onStream (aStream a)) l2)).
Proof.
  intros Hnd Hsorted.
  unfold selectEventsAfter, referenceStoredAt.
  pose proof (filter_unique EventId_ (fun le => String.eqb (StreamId_ le) (aStream a))
                (List.map (rowOf JSON_stringify sqlDateTime) l1)
                (List.map (rowOf JSON_stringify sqlDateTime) l2)
                (rowOf JSON_stringify sqlDateTime a)) as Href.
  simpl in Href. rewrite map_app. simpl. rewrite Href; cycle 1.
  { change (rowOf JSON_stringify sqlDateTime a
            :: List.map (rowOf JSON_stringify sqlDateTime) l2)
      with (List.map (rowOf JSON_stringify sqlDateTime) (a :: l2)).
    rewrite <- map_app, map_map. exact Hnd. }
  { apply String.eqb_refl. }
  clear Href.
  rewrite List.filter_app in Hsorted. simpl in Hsorted.
  unfold onStream at 2 in Hsorted. rewrite String.eqb_refl in Hsorted.
  rewrite map_app in Hsorted. simpl in Hsorted.
  apply StronglySorted_middle in Hsorted as (Hbefore & Hafter & Hs2).
  rewrite List.filter_app. simpl. rewrite String.eqb_refl. simpl.
  rewrite Z.ltb_irrefl.
  rewrite filter_earlier;
    [| eapply List.Forall_impl; [| exact Hbefore]; simpl; intros; lia].
  rewrite filter_later; [| exact Hafter]. simpl.
  rewrite orderByStoredAt_sorted.
  - now rewrite map_map.
  - apply StronglySorted_map. now rewrite map_map.
Qed.

Lemma parsed_records (l : list (@Append JSONRPCMessage)) :
  List.Forall (fun b => JSON_parse (JSON_stringify (aMessage b)) = inr (aMessage b)) l ->
  parsed JSON_parse (List.map recordOf l) = List.map (fun b => (eventIdOf b, aMessage b)) l.
Proof.
  induction l as [|b l IH]; simpl; intros H; [reflexivity |].
  inversion H as [|? ? Hb Hl]; subst. rewrite Hb. now rewrite IH.
Qed.

Lemma skipn_after {A} (l1 l2 : list A) (x : A) :
  skipn (S (length l1)) (l1 ++ x :: l2) = l2.
Proof. induction l1 as [|y l1 IH]; simpl; [reflexivity | exact IH]. Qed.

(** The replay after the [k]-th append of a history, for any codec that
    reads back the later messages of the stream. *)
Lemma replay_after_kth_append_codec ops k a send env c :
  nth_error ops k = Some a ->
  allStored JSON_stringify sqlDateTime ops c ->
  fault env = None ->
  aStream a <> "" ->
  contains "_"%char (aStream a) = false ->
  StronglySorted Z.lt
    (List.map (storedAtOf sqlDateTime) (List.filter (onStream (aStream a)) ops)) ->
  List.Forall (fun b => JSON_parse (JSON_stringify (aMessage b)) = inr (aMessage b))
    (List.filter (onStream (aStream a)) (skipn (S k) ops)) ->
  replayDeliversLater JSON_stringify JSON_parse sqlDateTime ops k send env c.
Proof.
  intros Hnth Hall Hfault Hne Hsep Hsorted Hrt a' Hnth'.
  assert (a' = a) as -> by congruence. clear Hnth'.
  unfold laterOnStream.
  apply nth_error_split in Hnth as (l1 & l2 & -> & <-).
  rewrite skipn_after in *.
  destruct (appendAll_stored (l1 ++ a :: l2) (fresh c) Hall) as (Ht & _ & Hnd & Hp & _).
  set (st1 := snd (appendAll JSON_stringify sqlDateTime (l1 ++ a :: l2) (fresh c))) in *.
  simpl in Ht.
  assert (extractStreamId (eventIdOf a) = aStream a) as Hsid.
  { unfold eventIdOf. destruct (generateEventId_shape (aStream a) (Date_now (aEnv a))
                                  (uuid_bits (aEnv a))) as [rest ->].
    now apply split_first_prefix. }
  assert (falsy (extractStreamId (eventIdOf a)) = false) as Hfalsy.
  { rewrite Hsid. destruct (aStream a); [congruence | reflexivity]. }
  assert (reachable env st1) as Hdb.
  { split; [left; apply Hp; now destruct l1 | exact Hfault]. }
  pose proof (selectEventsAfter_history l1 l2 a Hnd Hsorted) as Hsel.
  rewrite <- Ht, <- Hsid in Hsel at 1.
  destruct (replayEventsAfter_reachable (eventIdOf a) send env st1 _ Hfalsy Hdb Hsel)
    as [lines0 ->].
  edestruct (replayRows_spec send) as (c' & lines & ds & -> & _ & _ & _ & Hcalls).
  simpl in Hcalls. rewrite (parsed_records _ Hrt) in Hcalls.
  cbv zeta. rewrite Hcalls. simpl. rewrite Hsid. eexists.
  split; [reflexivity |]. split; reflexivity.
Qed.

End StoreFacts.

(** ** The store with JSON payloads *)

Section JsonStoreFacts.

Variable sqlDateTime : Z -> Z.
Context {Client : Type}.

Implicit Types (st : @State Json.value Client) (send : @Send Json.value Client).

(** C1, as amended: take any history of appends, to any streams, run from a
    fresh process, every call returning its event id.  If the stream of the
    [k]-th append has a non-empty id without the separator [_], and the
    events of that stream were stored with strictly increasing [StoredAt],
    then [replayEventsAfter] with the id returned by the [k]-th append (the
    database answering) returns that stream and calls [send], one awaited
    call after the other, for exactly the later events of that stream in
    write order, and for nothing of any other stream. *)
Theorem replay_after_kth_append (ops : list (@Append Json.value)) k a send env
    (c : Client) :
  nth_error ops k = Some a ->
  allStored Json.stringify sqlDateTime ops c ->
  fault env = None ->
  aStream a <> "" ->
  contains "_"%char (aStream a) = false ->
  StronglySorted Z.lt
    (List.map (storedAtOf sqlDateTime) (List.filter (onStream (aStream a)) ops)) ->
  replayDeliversLater Json.stringify Json.parse sqlDateTime ops k send env c.
Proof.
  intros Hnth Hall Hfault Hne Hsep Hsorted.
  apply (replay_after_kth_append_codec Json.stringify Json.parse sqlDateTime
           ops k a send env c Hnth Hall Hfault Hne Hsep Hsorted).
  apply List.Forall_forall. intros b _. apply parse_stringify.
Qed.

End JsonStoreFacts.

(** ** The store on closed scenarios *)

Section ScenarioFacts.

Import Scenario.

Abbreviation store := (storeEvent (Client := unit) Json.stringify datetime).
Abbreviation replay := (replayEventsAfter (Client := unit) Json.parse).

(** The empty id, run: one warning, the empty stream id, nothing else. *)
Example replay_of_the_empty_id :
  replay "" accept (answering 0 0) (running damaged)
  = (inr "", mkState true damaged [WarnNoLastEventId] tt []).
Proof. reflexivity. Qed.

Lemma replay_unknown_event_witness :
  falsy (extractStreamId "s1_999_0000beef") = false
  /\ exists outcome p lines,
       replay "s1_999_0000beef" accept (answering 0 0) (running damaged)
       = (outcome, mkState p damaged ([] ++ lines) tt [])
       /\ (reachable (answering 0 0) (running damaged) ->
           outcome = inr (extractStreamId "s1_999_0000beef"))
       /\ (forall err, outcome = inl err ->
           (pool (running damaged) = false /\ connect (answering 0 0) = Some err)
           \/ fault (answering 0 0) = Some err).
Proof.
  split; [reflexivity |].
  apply (replay_unknown_event Json.parse "s1_999_0000beef" accept (answering 0 0)
           (running damaged)).
  - reflexivity.
  - intros (row & Hin & Hid & _). simpl in Hin.
    repeat (destruct Hin as [<- | Hin]; [discriminate |]). exact Hin.
Defined.

(** The unknown id, run: the stream id comes back and nothing is delivered.
    An id without any separator is treated the same way, as its own stream
    id. *)
Example replay_of_an_unknown_event :
  replay "s1_999_0000beef" accept (answering 0 0) (running damaged)
  = (inr "s1", mkState true damaged [LogReplaying "s1" "s1_999_0000beef";
                                    LogReplayed 0 "s1"] tt [])
  /\ replay "s1" accept (answering 0 0) (running damaged)
     = (inr "s1", mkState true damaged [LogReplaying "s1" "s1";
                                       LogReplayed 0 "s1"] tt []).
Proof. split; reflexivity. Qed.

Lemma replay_skips_corrupt_row_witness :
  Json.parse "{oops" = inl Json.syntaxError
  /\ exists st' ds,
       replay "s1_1000_0000000a" accept (answering 0 0) (running damaged)
       = (inr (extractStreamId "s1_1000_0000000a"), st')
       /\ McpEvents st' = McpEvents (running damaged)
       /\ deliveries st' = deliveries (running damaged) ++ ds
       /\ deliverAll accept
            (parsed Json.parse [mkRecordsetRow "s1_1001_0000000b" "[2]"]
             ++ parsed Json.parse [mkRecordsetRow "s1_1003_0000000d" "null"])
            (client (running damaged))
          = (ds, client st')
       /\ List.map payload ds
          = parsed Json.parse [mkRecordsetRow "s1_1001_0000000b" "[2]"]
            ++ parsed Json.parse [mkRecordsetRow "s1_1003_0000000d" "null"]
       /\ In (ErrParsing "s1_1002_0000000c" Json.syntaxError) (console st').
Proof.
  split; [reflexivity |].
  apply (replay_skips_corrupt_row Json.parse "s1_1000_0000000a" accept (answering 0 0)
           (running damaged) [mkRecordsetRow "s1_1001_0000000b" "[2]"]
           (mkRecordsetRow "s1_1002_0000000c" "{oops")
           [mkRecordsetRow "s1_1003_0000000d" "null"] Json.syntaxError).
  - reflexivity.
  - split; [now left | reflexivity].
  - reflexivity.
  - reflexivity.
Defined.


(** The scenario of the specification, run: after the four appends, a replay
    after the first event delivers B and C of stream [s1], in that order, and
    not X of stream [s2]. *)
Example replay_of_the_specified_scenario :
  let st := snd (appendAll Json.stringify datetime history (fresh tt)) in
  fst (replay "s1_1730541600000_00000001" accept (answering 0 0) st) = inr "s1"
  /\ List.map payload (deliveries (snd (replay "s1_1730541600000_00000001" accept
                                          (answering 0 0) st)))
     = [("s1_1730541600010_00000002", Json.Str "B");
        ("s1_1730541600030_00000004", Json.Str "C")].
Proof. vm_compute. split; reflexivity. Qed.

(** The same appends one millisecond apart: A and B are stored with one
    [StoredAt], and the replay after A delivers C only. *)
Example replay_of_rapid_appends :
  let st := snd (appendAll Json.stringify datetime rapid (fresh tt)) in
  List.map StoredAt (McpEvents st)
  = [519162480000; 519162480000; 519162480001; 519162480001]%Z
  /\ List.map payload (deliveries (snd (replay "s1_1730541600000_00000001" accept
                                          (answering 0 0) st)))
     = [("s1_1730541600003_00000004", Json.Str "C")].
Proof. vm_compute. split; reflexivity. Qed.

Lemma replay_after_kth_append_witness :
  nth_error history 0
    = Some (mkAppend "s1" (Json.Str "A") (answering 1730541600000 (leading 1)))
  /\ allStored Json.stringify datetime history tt
  /\ replayDeliversLater Json.stringify Json.parse datetime history 0 accept
       (answering 0 0) tt.
Proof.
  assert (allStored Json.stringify datetime history tt) as Hall
    by (vm_compute; reflexivity).
  split; [reflexivity |]. split; [exact Hall |].
  apply (replay_after_kth_append datetime history 0
           (mkAppend "s1" (Json.Str "A") (answering 1730541600000 (leading 1)))
           accept (answering 0 0) tt).
  - reflexivity.
  - exact Hall.
  - reflexivity.
  - discriminate.
  - reflexivity.
  - vm_compute. repeat constructor; reflexivity.
Defined.

(** C1 as stated fails: two appends to stream [s1] within one millisecond
    both return their event ids, and a replay after the first delivers
    nothing, although B was appended after A. *)
Lemma replay_after_kth_append_counterexample :
  allStored Json.stringify datetime burst tt
  /\ ~ replayDeliversLater Json.stringify Json.parse datetime burst 0 accept
         (answering 0 0) tt.
Proof.
  split; [vm_compute; reflexivity |].
  intros H.
  destruct (H _ eq_refl) as (st2 & Hrun & Hds & _).
  vm_compute in Hrun. inversion Hrun; subst st2. clear Hrun.
  vm_compute in Hds. discriminate.
Qed.



(** The same for the other kind of fault: a second insert of an event id
    throws the driver's [RequestError]. *)
Example storeEvent_duplicate_key :
  let st := snd (store "s1" (Json.Str "A") (answering 1730541600000 (leading 1)) (fresh tt)) in
  fst (store "s1" (Json.Str "B") (answering 1730541600000 (leading 1)) st)
  = inl primaryKeyViolation
  /\ name primaryKeyViolation <> "PersistenceFailure".
Proof. split; [vm_compute; reflexivity | discriminate]. Qed.

End ScenarioFacts.

(** * Properties of the session registry *)

Section RegistryFacts.

Import Server.

Variable isInitializeRequest : Json.value -> bool.
Variable sdk : Transport -> Request -> Handling.

Implicit Types (m : gmap string Transport) (s : Server).

(** ** Generated session ids *)

Lemma hex_length (digits : nat) (n : N) : String.length (hex digits n) = digits.
Proof.
  revert n. induction digits as [|d IH]; intros n; simpl; [reflexivity |].
  rewrite append_length, IH. simpl. lia.
Qed.

Lemma randomUUID_length (bits : N) : String.length (randomUUID bits) = 36.
Proof.
  unfold randomUUID. cbv zeta.
  repeat (rewrite append_length || rewrite hex_length). reflexivity.
Qed.

Lemma randomUUID_truthy (bits : N) : falsy (randomUUID bits) = false.
Proof.
  pose proof (randomUUID_length bits) as H.
  destruct (randomUUID bits); [discriminate | reflexivity].
Qed.

Lemma inherited_short (key : string) : inherited key = true -> String.length key <= 20.
Proof.
  unfold inherited. intros H. apply existsb_exists in H as (k & Hin & Heq).
  apply String.eqb_eq in Heq. subst k. simpl in Hin.
  repeat (destruct Hin as [<- | Hin]; [simpl; lia |]). contradiction.
Qed.

Lemma randomUUID_not_inherited (bits : N) : inherited (randomUUID bits) = false.
Proof.
  destruct (inherited (randomUUID bits)) eqn:H; [| reflexivity].
  apply inherited_short in H. rewrite randomUUID_length in H. lia.
Qed.

(** ** The life of a session *)

(** An initialization request without session id, on which the transport
    runs its initialization, registers the new transport under the generated
    id; a later request presenting that id finds it. *)
Lemma initialization_registers_session (b : Json.value) (bits : N) s :
  let req := mkRequest POST None b in
  let sid := randomUUID bits in
  isInitializeRequest b = true ->
  initializes (sdk (mkTransport sid None) req) = true ->
  closes (sdk (mkTransport sid None) req) = false ->
  get (transports (snd (postMcp isInitializeRequest sdk req bits s))) sid
  = Own (mkTransport sid (Some sid))
  /\ constructed (snd (postMcp isInitializeRequest sdk req bits s))
     = constructed s ++ [mkTransport sid None].
Proof.
  intros req sid Hinit Hruns Hopen.
  unfold postMcp. cbn [mcpSessionId req present getHeader truthy andb negb body].
  rewrite Hinit. cbn [andb]. unfold tryHandle, handleRequest. fold sid.
  cbn [generator transports constructed]. rewrite Hruns, Hopen.
  destruct (rejects (sdk (mkTransport sid None) req)) as [err|];
    [destruct (headersSent (sdk (mkTransport sid None) req)) |];
    cbn [snd transports constructed]; unfold get; rewrite lookup_insert_eq; now split.
Qed.

(** ** Closing a session *)

(** C9: for a session, whose id was generated by [randomUUID()] and whose
    transport carries it, once the close observer has fired the lookup of
    the id in [transports] is [undefined], and the observer firing a second
    time leaves [transports] as it is (deleting an absent property raises
    nothing). *)
Theorem close_observer_idempotent (bits : N) m :
  let sid := randomUUID bits in
  let t := mkTransport sid (Some sid) in
  get (onclose t m) sid = Undefined
  /\ onclose t (onclose t m) = onclose t m.
Proof.
  intros sid t. subst sid t. unfold onclose. cbn [sessionId].
  rewrite randomUUID_truthy. split.
  - unfold get. rewrite lookup_delete_eq. now rewrite randomUUID_not_inherited.
  - apply delete_delete_eq.
Qed.

(** ** Requests naming a session that is not registered *)

(** A request that presents a session id which is not a key of [transports]
    and not a property name of [Object.prototype] is answered 400 by both
    handlers, and the server is left as it is: no transport is constructed
    and none is registered. *)
Lemma unknown_session_rejected (sid : string) (method : Method) (b : Json.value)
    (bits : N) s :
  falsy sid = false ->
  transports s !! sid = None ->
  inherited sid = false ->
  postMcp isInitializeRequest sdk (mkRequest method (Some sid) b) bits s
  = (JsonRpcError 400 (-32000)
       "Bad Request: No valid session ID provided or not an initialization request."
       (bodyId b), s)
  /\ handleSessionRequest sdk (mkRequest method (Some sid) b) s
     = (Plain 400 "Invalid or missing session ID", s).
Proof.
  intros Hsid Hown Hinh.
  unfold postMcp, handleSessionRequest, getHeader, get, present. simpl.
  rewrite Hsid, Hown, Hinh. simpl. now split.
Qed.

(** The same for a session that was registered and has closed. *)
Lemma closed_session_rejected (method : Method) (b : Json.value) (bits bits' : N) s :
  let sid := randomUUID bits in
  let s' := mkServer (onclose (mkTransport sid (Some sid)) (transports s)) (constructed s) in
  postMcp isInitializeRequest sdk (mkRequest method (Some sid) b) bits' s'
  = (JsonRpcError 400 (-32000)
       "Bad Request: No valid session ID provided or not an initialization request."
       (bodyId b), s')
  /\ handleSessionRequest sdk (mkRequest method (Some sid) b) s'
     = (Plain 400 "Invalid or missing session ID", s').
Proof.
  intros sid s'. apply unknown_session_rejected.
  - apply randomUUID_truthy.
  - subst s' sid. unfold onclose. cbn [sessionId transports].
    rewrite randomUUID_truthy. apply lookup_delete_eq.
  - apply randomUUID_not_inherited.
Qed.

(** A session id that is a property name of [Object.prototype] and not a key
    of [transports] passes the check [transports[sessionId]] of both
    handlers; the call of [handleRequest] on the inherited value throws, and
    the request is answered 500. *)
Lemma inherited_name_internal_error (key : string) (method : Method) (b : Json.value)
    (bits : N) s :
  inherited key = true ->
  transports s !! key = None ->
  postMcp isInitializeRequest sdk (mkRequest method (Some key) b) bits s
  = (JsonRpcError 500 (-32603) "Internal Server Error" (bodyId b), s)
  /\ handleSessionRequest sdk (mkRequest method (Some key) b) s
     = (Plain 500 "Internal Server Error", s).
Proof.
  intros Hinh Hown.
  assert (falsy key = false) as Hkey.
  { destruct key; [discriminate | reflexivity]. }
  unfold postMcp, handleSessionRequest, getHeader, get, present. simpl.
  rewrite Hkey, Hown, Hinh. simpl. now split.
Qed.

(** C8, the failing input: on a server with no session, a request whose
    [mcp-session-id] is [constructor] is not answered with the
    invalid-session response (status 400) that an unknown session id gets;
    [POST] answers the JSON-RPC error -32603 and [GET]/[DELETE] answer the
    text "Internal Server Error", both with status 500.  No transport is
    constructed and none is registered. *)
Theorem inherited_session_id_answered_500 (b : Json.value) (bits : N) :
  let s := mkServer ∅ [] in
  serve isInitializeRequest sdk (mkRequest POST (Some "constructor") b) bits s
  = (JsonRpcError 500 (-32603) "Internal Server Error" (bodyId b), s)
  /\ serve isInitializeRequest sdk (mkRequest GET (Some "constructor") b) bits s
     = (Plain 500 "Internal Server Error", s)
  /\ serve isInitializeRequest sdk (mkRequest DELETE (Some "constructor") b) bits s
     = (Plain 500 "Internal Server Error", s).
Proof.
  intros s. unfold serve. cbn [method].
  pose proof (fun mth => inherited_name_internal_error "constructor" mth b bits s
                           eq_refl (lookup_empty _)) as H.
  split; [apply (H POST) | split; [apply (H GET) | apply (H DELETE)]].
Qed.

End RegistryFacts.

(** * Further properties of the event store *)

Section StoreBehaviour.

Context {JSONRPCMessage : Type}.
Variable JSON_stringify : JSONRPCMessage -> string.
Variable JSON_parse : string -> JsError + JSONRPCMessage.
Variable sqlDateTime : Z -> Z.
Context {Client : Type}.

Implicit Types (st : @State JSONRPCMessage Client) (send : @Send JSONRPCMessage Client)
  (env : Env) (rows : list RecordsetRow).

Ltac run := unfold bind, try_catch, log, setPool, ret, throw; simpl.

(** ** What a replay can do *)

Lemma replayEventsAfter_select_error lastEventId send env st err :
  falsy (extractStreamId lastEventId) = false ->
  reachable env st ->
  selectEventsAfter (McpEvents st) (extractStreamId lastEventId) lastEventId = inl err ->
  exists lines,
    replayEventsAfter JSON_parse lastEventId send env st
    = (inl err,
       mkState true (McpEvents st) (console st ++ lines) (client st) (deliveries st)).
Proof.
  intros Hsid [Hpool Hfault] Hsel.
  unfold replayEventsAfter. rewrite (extract_nonempty _ Hsid), Hsid.
  destruct (getDbPool_reachable env
              (mkState (pool st) (McpEvents st)
                 (console st ++ [LogReplaying (extractStreamId lastEventId) lastEventId])
                 (client st) (deliveries st)) Hpool) as [lines Hdb].
  simpl in Hdb.
  unfold bind at 1. unfold log at 1. simpl.
  unfold try_catch. unfold bind at 1. rewrite Hdb.
  unfold bind at 1. unfold querySelect. simpl. rewrite Hfault, Hsel. run.
  eexists. rewrite <- !app_assoc. reflexivity.
Qed.

(** Every call of [replayEventsAfter] ends in one of five ways. *)
Lemma replayEventsAfter_cases lastEventId send env st :
  (falsy (extractStreamId lastEventId) = true
   /\ exists line,
        replayEventsAfter JSON_parse lastEventId send env st
        = (inr "", mkState (pool st) (McpEvents st) (console st ++ [line])
                           (client st) (deliveries st)))
  \/ (falsy (extractStreamId lastEventId) = false
      /\ exists err p lines,
           replayEventsAfter JSON_parse lastEventId send env st
           = (inl err, mkState p (McpEvents st) (console st ++ lines)
                               (client st) (deliveries st))
           /\ (pool st = true -> p = true)
           /\ ((pool st = false /\ connect env = Some err)
               \/ fault env = Some err
               \/ (reachable env st
                   /\ selectEventsAfter (McpEvents st) (extractStreamId lastEventId)
                        lastEventId = inl err)))
  \/ (falsy (extractStreamId lastEventId) = false
      /\ reachable env st
      /\ exists rows lines,
           selectEventsAfter (McpEvents st) (extractStreamId lastEventId) lastEventId
           = inr rows
           /\ replayEventsAfter JSON_parse lastEventId send env st
              = (inr (extractStreamId lastEventId),
                 mkState true (McpEvents st)
                   (console st ++ lines
                    ++ [LogReplayed
                          (length (List.filter resolved
                                     (fst (deliverAll send (parsed JSON_parse rows)
                                             (client st)))))
                          (extractStreamId lastEventId)])
                   (snd (deliverAll send (parsed JSON_parse rows) (client st)))
                   (deliveries st
                    ++ fst (deliverAll send (parsed JSON_parse rows) (client st))))).
Proof.
  destruct (falsy (extractStreamId lastEventId)) eqn:Hsid.
  - left. split; [reflexivity |].
    unfold replayEventsAfter. destruct (falsy lastEventId) eqn:Hid.
    + exists WarnNoLastEventId. reflexivity.
    + rewrite Hsid. exists (ErrNoStreamId lastEventId). reflexivity.
  - right.
    destruct (getDbPool_cases env st) as [Hpool | (err & Hp & Hc)].
    + destruct (fault env) as [err|] eqn:Hfault.
      * left. split; [reflexivity |].
        destruct (replayEventsAfter_fault JSON_parse lastEventId send env st err
                    Hsid Hpool Hfault) as [lines ->].
        exists err, true, lines. split; [reflexivity |]. split; auto.
      * destruct (selectEventsAfter (McpEvents st) (extractStreamId lastEventId)
                    lastEventId) as [err | rows] eqn:Hsel.
        -- left. split; [reflexivity |].
           destruct (replayEventsAfter_select_error lastEventId send env st err
                       Hsid (conj Hpool Hfault) Hsel) as [lines ->].
           exists err, true, lines. split; [reflexivity |]. split; auto.
           right. right. split; [now split | reflexivity].
        -- right. split; [reflexivity |]. split; [now split |].
           destruct (replayEventsAfter_reachable JSON_parse lastEventId send env st rows
                       Hsid (conj Hpool Hfault) Hsel) as [lines0 ->].
           edestruct (replayRows_spec JSON_parse send rows 0)
             as (c & lines & ds & -> & _ & _ & _ & Hcalls).
           simpl in Hcalls.
           exists rows, (lines0 ++ lines). split; [reflexivity |].
           rewrite Hcalls. simpl. now rewrite <- !app_assoc.
    + left. split; [reflexivity |].
      rewrite (replayEventsAfter_unreachable JSON_parse lastEventId send env st err
                 Hsid Hp Hc).
      eexists err, false, _. split; [reflexivity |]. split; [congruence |].
      left. now split.
Qed.



(** X2: a replay only reads.  Whatever the last event id, the receiver and
    the database's answers, [replayEventsAfter] leaves the table as it was,
    keeps a cached pool cached, and only adds lines to the console and calls
    to the record of [send]. *)
Theorem replayEventsAfter_only_reads lastEventId send env st :
  let st' := snd (replayEventsAfter JSON_parse lastEventId send env st) in
  McpEvents st' = McpEvents st
  /\ (pool st = true -> pool st' = true)
  /\ (exists lines, console st' = console st ++ lines)
  /\ (exists ds, deliveries st' = deliveries st ++ ds).
Proof.
  destruct (replayEventsAfter_cases lastEventId send env st)
    as [(_ & line & ->) | [(_ & err & p & lines & -> & Hp & _)
                          | (_ & _ & rows & lines & _ & ->)]]; simpl.
  - repeat split; eauto. exists []. now rewrite app_nil_r.
  - repeat split; eauto. exists []. now rewrite app_nil_r.
  - repeat split; eauto.
Qed.

(** X3: the errors of a replay are the database's, and come before any
    delivery.  When [replayEventsAfter] throws, the error is the refused
    connection, the rejected query, or the query's own error (a subquery with
    more than one row); [send] was not called and the receiver is as it was.
    A parse error or a rejection of [send] is never thrown. *)
Theorem replayEventsAfter_throws_before_delivering lastEventId send env st err st' :
  replayEventsAfter JSON_parse lastEventId send env st = (inl err, st') ->
  ((pool st = false /\ connect env = Some err)
   \/ fault env = Some err
   \/ selectEventsAfter (McpEvents st) (extractStreamId lastEventId) lastEventId = inl err)
  /\ deliveries st' = deliveries st
  /\ client st' = client st.
Proof.
  intros H.
  destruct (replayEventsAfter_cases lastEventId send env st)
    as [(_ & line & Hrun) | [(_ & err' & p & lines & Hrun & _ & Hwhy)
                            | (_ & _ & rows & lines & _ & Hrun)]];
    rewrite Hrun in H; inversion H; subst; simpl.
  split; [| now split].
  destruct Hwhy as [Hw | [Hw | [_ Hw]]]; auto.
Qed.

(** ** The replay query *)

Lemma filter_ext_in {A} (f g : A -> bool) (l : list A) :
  (forall x, In x l -> f x = g x) -> List.filter f l = List.filter g l.
Proof.
  induction l as [|x l IH]; simpl; intros H; [reflexivity |].
  rewrite (H x (or_introl eq_refl)), IH; [reflexivity |].
  intros y Hy. apply H. now right.
Qed.

Lemma insertByStoredAt_perm (r : Row) (l : list Row) :
  Permutation (insertByStoredAt r l) (r :: l).
Proof.
  induction l as [|x l IH]; simpl; [reflexivity |].
  destruct (StoredAt r <=? StoredAt x)%Z; [reflexivity |].
  rewrite IH. apply perm_swap.
Qed.

Lemma orderByStoredAt_perm (l : list Row) : Permutation (orderByStoredAt l) l.
Proof.
  induction l as [|r l IH]; simpl; [reflexivity |].
  rewrite insertByStoredAt_perm. now rewrite IH.
Qed.

Lemma insertByStoredAt_ascending (r : Row) (l : list Row) :
  StronglySorted (fun x y => (StoredAt x <= StoredAt y)%Z) l ->
  StronglySorted (fun x y => (StoredAt x <= StoredAt y)%Z) (insertByStoredAt r l).
Proof.
  induction l as [|x l IH]; simpl; intros H.
  - repeat constructor.
  - apply StronglySorted_inv in H as [Hs Hf].
    destruct (Z.leb_spec (StoredAt r) (StoredAt x)) as [Hle | Hgt].
    + constructor; [constructor; assumption |].
      constructor; [exact Hle |].
      eapply List.Forall_impl; [| exact Hf]. simpl. intros; lia.
    + constructor; [now apply IH |].
      rewrite List.Forall_forall in *. intros y Hy.
      apply (Permutation_in _ (insertByStoredAt_perm r l)) in Hy.
      destruct Hy as [<- | Hy]; [lia | now apply Hf].
Qed.

Lemma orderByStoredAt_ascending (l : list Row) :
  StronglySorted (fun x y => (StoredAt x <= StoredAt y)%Z) (orderByStoredAt l).
Proof.
  induction l as [|r l IH]; simpl; [constructor | now apply insertByStoredAt_ascending].
Qed.

(** When the reference is found once, [storedAfter] is the comparison with
    its [StoredAt]; when it is not found, [storedAfter] holds of no row. *)
Lemma storedAfter_reference (t : list Row) (streamId : StreamId) (lastEventId : EventId)
    (le e : Row) :
  List.filter (fun x => String.eqb (EventId_ x) lastEventId
                        && String.eqb (StreamId_ x) streamId) t = [le] ->
  StoreSpec.storedAfter t streamId lastEventId e
  = String.eqb (StreamId_ e) streamId && (StoredAt le <? StoredAt e)%Z.
Proof.
  intros Hle. unfold StoreSpec.storedAfter. f_equal.
  assert (forall x, In x t ->
            String.eqb (EventId_ x) lastEventId && String.eqb (StreamId_ x) streamId = true ->
            x = le) as Honly.
  { intros x Hx Hm.
    assert (In x [le]) as Hin by (rewrite <- Hle; apply filter_In; now split).
    destruct Hin as [-> | []]. reflexivity. }
  assert (In le (List.filter (fun x => String.eqb (EventId_ x) lastEventId
                                       && String.eqb (StreamId_ x) streamId) t)) as Hin
    by (rewrite Hle; now left).
  apply filter_In in Hin as [Hin Hm].
  destruct (StoredAt le <? StoredAt e)%Z eqn:Hlt.
  - apply existsb_exists. exists le. split; [exact Hin |]. now rewrite Hm, Hlt.
  - destruct (existsb _ t) eqn:Hex; [| reflexivity].
    apply existsb_exists in Hex as (x & Hx & Hmx).
    apply andb_true_iff in Hmx as [Hmx Hltx].
    rewrite (Honly x Hx Hmx) in Hltx. congruence.
Qed.

Lemma storedAfter_no_reference (t : list Row) (streamId : StreamId) (lastEventId : EventId)
    (e : Row) :
  List.filter (fun x => String.eqb (EventId_ x) lastEventId
                        && String.eqb (StreamId_ x) streamId) t = [] ->
  StoreSpec.storedAfter t streamId lastEventId e = false.
Proof.
  intros Hnone. unfold StoreSpec.storedAfter.
  destruct (existsb _ t) eqn:Hex; [| apply andb_false_r].
  apply existsb_exists in Hex as (x & Hx & Hmx).
  apply andb_true_iff in Hmx as [Hmx _].
  assert (In x []) as [] by (rewrite <- Hnone; apply filter_In; now split).
Qed.

(** X4: the replay query.  When it answers, its rows are the columns
    [EventId] and [MessageJson] of exactly the rows of the table that belong
    to the stream and were stored strictly after the row of the stream
    carrying the last event id, each once, in ascending [StoredAt] order. *)
Theorem selectEventsAfter_answer (t : list Row) (streamId : StreamId)
    (lastEventId : EventId) rows :
  selectEventsAfter t streamId lastEventId = inr rows ->
  exists full,
    rows = List.map (fun e => mkRecordsetRow (EventId_ e) (MessageJson e)) full
    /\ Permutation full (List.filter (StoreSpec.storedAfter t streamId lastEventId) t)
    /\ StronglySorted (fun x y => (StoredAt x <= StoredAt y)%Z) full.
Proof.
  unfold selectEventsAfter, referenceStoredAt.
  destruct (List.filter (fun le => String.eqb (EventId_ le) lastEventId
                                   && String.eqb (StreamId_ le) streamId) t)
    as [|le [|le' more]] eqn:Href; intros H; inversion H; subst rows; clear H.
  - exists []. split; [reflexivity |]. split; [| constructor].
    rewrite filter_none; [reflexivity |].
    intros e _. now apply storedAfter_no_reference.
  - eexists. split; [reflexivity |]. split; [| apply orderByStoredAt_ascending].
    rewrite orderByStoredAt_perm.
    rewrite (filter_ext_in (StoreSpec.storedAfter t streamId lastEventId)
               (fun e => String.eqb (StreamId_ e) streamId && (StoredAt le <? StoredAt e)%Z));
      [reflexivity |].
    intros e _. now apply storedAfter_reference.
Qed.

(** The query fails only when more than one row of the stream carries the
    last event id, which a table with unique event ids excludes. *)
Lemma filter_key_unique {A} (f : A -> string) (g : A -> bool) (k : string) (l : list A) :
  List.NoDup (List.map f l) ->
  length (List.filter (fun x => String.eqb (f x) k && g x) l) <= 1.
Proof.
  induction l as [|x l IH]; simpl; intros Hnd; [lia |].
  inversion Hnd as [|? ? Hnotin Hnd']; subst.
  destruct (String.eqb_spec (f x) k) as [Hk | Hk]; simpl; [| now apply IH].
  assert (List.filter (fun y => String.eqb (f y) k && g y) l = []) as Hrest.
  { apply filter_none. intros y Hy. apply andb_false_iff. left.
    apply String.eqb_neq. intros Hyk. apply Hnotin. rewrite Hk, <- Hyk. now apply in_map. }
  rewrite Hrest. destruct (g x); simpl; lia.
Qed.

(** X5: on a table with unique event ids the replay query always answers. *)
Theorem selectEventsAfter_total (t : list Row) (streamId : StreamId) (lastEventId : EventId) :
  List.NoDup (List.map EventId_ t) ->
  exists rows, selectEventsAfter t streamId lastEventId = inr rows.
Proof.
  intros Hnd. unfold selectEventsAfter, referenceStoredAt.
  pose proof (filter_key_unique EventId_ (fun le => String.eqb (StreamId_ le) streamId)
                lastEventId t Hnd) as Hlen.
  destruct (List.filter _ t) as [|le [|le' more]]; eauto. simpl in Hlen. lia.
Qed.

(** ** What a replay delivers *)

(** X6: with a stream id extracted and the database answering, a replay
    returns the stream id and calls [send], one call after the other in the
    order of the query, for exactly the selected rows whose text parses; the
    number it logs is the number of those calls that resolved. *)
Theorem replayEventsAfter_delivers lastEventId send env st rows :
  falsy (extractStreamId lastEventId) = false ->
  reachable env st ->
  selectEventsAfter (McpEvents st) (extractStreamId lastEventId) lastEventId = inr rows ->
  exists lines,
    replayEventsAfter JSON_parse lastEventId send env st
    = (inr (extractStreamId lastEventId),
       mkState true (McpEvents st)
         (console st ++ lines
          ++ [LogReplayed
                (length (List.filter resolved
                           (fst (deliverAll send (parsed JSON_parse rows) (client st)))))
                (extractStreamId lastEventId)])
         (snd (deliverAll send (parsed JSON_parse rows) (client st)))
         (deliveries st ++ fst (deliverAll send (parsed JSON_parse rows) (client st)))).
Proof.
  intros Hsid Hdb Hsel.
  destruct (replayEventsAfter_cases lastEventId send env st)
    as [(Hf & _) | [(_ & err & p & lines & Hrun & _ & Hwhy)
                   | (_ & _ & rows' & lines & Hsel' & Hrun)]].
  - congruence.
  - destruct Hdb as [Hpool Hfault].
    destruct Hwhy as [[Hp Hc] | [Hw | [_ Hw]]]; [| congruence | congruence].
    destruct Hpool; congruence.
  - assert (rows' = rows) as -> by congruence. now exists lines.
Qed.

Lemma selectEventsAfter_sound (t : list Row) (streamId : StreamId) (lastEventId : EventId)
    rows r :
  selectEventsAfter t streamId lastEventId = inr rows ->
  In r rows ->
  exists row, In row t /\ rEventId r = EventId_ row /\ rMessageJson r = MessageJson row
              /\ StoreSpec.storedAfter t streamId lastEventId row = true
              /\ EventId_ row <> lastEventId.
Proof.
  unfold selectEventsAfter, referenceStoredAt.
  destruct (List.filter (fun le => String.eqb (EventId_ le) lastEventId
                                   && String.eqb (StreamId_ le) streamId) t)
    as [|le [|le' more]] eqn:Href; intros H Hin; inversion H; subst rows; clear H.
  - contradiction.
  - apply in_map_iff in Hin as (row & <- & Hrow).
    rewrite In_orderByStoredAt in Hrow. apply filter_In in Hrow as [Hrow Hlater].
    exists row. repeat split; auto.
    + now rewrite (storedAfter_reference t streamId lastEventId le row Href).
    + intros Hid. apply andb_true_iff in Hlater as [Hstream Hlt].
      assert (In row [le]) as Hle.
      { rewrite <- Href. apply filter_In. split; [exact Hrow |].
        rewrite Hstream, andb_true_r. now apply String.eqb_eq. }
      destruct Hle as [-> | []]. rewrite Z.ltb_irrefl in Hlt. discriminate.
Qed.

Lemma deliverAll_In send (events : list (EventId * JSONRPCMessage)) (c : Client) d :
  In d (fst (deliverAll send events c)) -> In (payload d) events.
Proof.
  intros H. rewrite <- (deliverAll_payload send events c). now apply in_map.
Qed.

(** X7: what a replay delivers comes from the stream and from after the last
    event.  Every call of [send] made by [replayEventsAfter] carries the id
    and the parsed text of a row of the table that belongs to the extracted
    stream and was stored strictly after the row carrying the last event id;
    the last event itself is never delivered again. *)
Theorem replayEventsAfter_delivers_later_rows lastEventId send env st ds d :
  deliveries (snd (replayEventsAfter JSON_parse lastEventId send env st))
  = deliveries st ++ ds ->
  In d ds ->
  dEventId d <> lastEventId
  /\ exists row,
       In row (McpEvents st)
       /\ EventId_ row = dEventId d
       /\ JSON_parse (MessageJson row) = inr (dMessage d)
       /\ StoreSpec.storedAfter (McpEvents st) (extractStreamId lastEventId) lastEventId row
          = true.
Proof.
  intros Hds Hd.
  destruct (replayEventsAfter_cases lastEventId send env st)
    as [(_ & line & Hrun) | [(_ & err & p & lines & Hrun & _)
                            | (_ & _ & rows & lines & Hsel & Hrun)]];
    rewrite Hrun in Hds; simpl in Hds.
  - rewrite <- (app_nil_r (deliveries st)) in Hds at 1.
    apply app_inv_head in Hds. subst ds. contradiction.
  - rewrite <- (app_nil_r (deliveries st)) in Hds at 1.
    apply app_inv_head in Hds. subst ds. contradiction.
  - apply app_inv_head in Hds. subst ds.
    apply deliverAll_In in Hd.
    destruct (In_parsed JSON_parse rows _ _ Hd) as (r & Hr & Hid & Hparse).
    destruct (selectEventsAfter_sound _ _ _ rows r Hsel Hr)
      as (row & Hrow & Heid & Hjson & Hafter & Hne).
    split; [congruence |].
    exists row. repeat split; auto; congruence.
Qed.

(** ** Stream ids with the separator *)

(** X8: events of a stream whose id contains the separator [_] cannot be
    replayed.  On a table with unique event ids that holds the row of an
    append to such a stream, [replayEventsAfter] with the id of that append
    never returns that stream, never calls [send] and leaves the receiver as
    it was, whatever the database answers. *)
Theorem separator_stream_never_replays (a : @Append JSONRPCMessage) send env st :
  In (rowOf JSON_stringify sqlDateTime a) (McpEvents st) ->
  List.NoDup (List.map EventId_ (McpEvents st)) ->
  contains "_"%char (aStream a) = true ->
  let (r, st') := replayEventsAfter JSON_parse (eventIdOf a) send env st in
  r <> inr (aStream a) /\ deliveries st' = deliveries st /\ client st' = client st.
Proof.
  intros Hrow Hnd Hsep.
  assert (extractStreamId (eventIdOf a) <> aStream a) as Hother.
  { intros Heq. pose proof (split_first_no_separator (eventIdOf a)) as Hno.
    fold (extractStreamId (eventIdOf a)) in Hno. rewrite Heq in Hno. congruence. }
  destruct (replayEventsAfter_cases (eventIdOf a) send env st)
    as [(_ & line & ->) | [(_ & err & p & lines & -> & _)
                          | (_ & _ & rows & lines & Hsel & ->)]].
  - repeat split. intros Heq. inversion Heq as [Hs]. rewrite <- Hs in Hsep. discriminate.
  - repeat split. discriminate.
  - assert (rows = []) as ->.
    { rewrite selectEventsAfter_unknown in Hsel; [now inversion Hsel |].
      intros (row & Hin & Hid & Hstream).
      assert (row = rowOf JSON_stringify sqlDateTime a) as ->.
      { apply (NoDup_map_injective EventId_ (McpEvents st)); auto. }
      simpl in Hstream. congruence. }
    simpl. rewrite app_nil_r. repeat split. congruence.
Qed.

(** ** Histories *)

Lemma NoDup_map_snoc {A B} (f : A -> B) (l : list A) (x : A) :
  List.NoDup (List.map f l) -> (forall y, In y l -> f y <> f x) ->
  List.NoDup (List.map f (l ++ [x])).
Proof.
  induction l as [|z l IH]; simpl; intros Hnd Hfresh.
  - constructor; [intros [] | constructor].
  - inversion Hnd as [|? ? Hnotin Hnd']; subst. constructor.
    + rewrite map_app, in_app_iff. simpl. intros [Hin | [Heq | []]].
      * now apply Hnotin.
      * apply (Hfresh z); [now left | congruence].
    + apply IH; [exact Hnd' |]. intros y Hy. apply Hfresh. now right.
Qed.

(** X9: the table is append-only and its event ids stay unique.  After any
    sequence of [storeEvent] calls, whatever each call met, the table is the
    table before followed by one row for each call that returned an id, in
    call order; a call that threw left no row.  Unique event ids stay unique,
    and neither the receiver nor the record of deliveries is touched. *)
Theorem appendAll_appends (ops : list (@Append JSONRPCMessage)) :
  forall st,
    let (results, st') := appendAll JSON_stringify sqlDateTime ops st in
    length results = length ops
    /\ McpEvents st'
       = McpEvents st
         ++ List.map (rowOf JSON_stringify sqlDateTime) (StoreSpec.accepted ops results)
    /\ (List.NoDup (List.map EventId_ (McpEvents st)) ->
        List.NoDup (List.map EventId_ (McpEvents st')))
    /\ client st' = client st /\ deliveries st' = deliveries st.
Proof.
  induction ops as [|a ops IH]; intros st; simpl.
  - rewrite app_nil_r. repeat split; auto.
  - pose proof (storeEvent_cases JSON_stringify sqlDateTime
                  (aStream a) (aMessage a) (aEnv a) st) as Hone.
    simpl in Hone.
    destruct (storeEvent JSON_stringify sqlDateTime (aStream a) (aMessage a) (aEnv a) st)
      as [[err | id] st1].
    + destruct Hone as (_ & Ht1 & _ & Hc1 & Hd1).
      specialize (IH st1).
      destruct (appendAll JSON_stringify sqlDateTime ops st1) as [rs st2].
      destruct IH as (Hlen & Ht2 & Hnd & Hc2 & Hd2). simpl.
      rewrite Ht1 in *. repeat split; auto; congruence.
    + destruct Hone as (_ & _ & Hins & _ & Hc1 & Hd1).
      apply insertRow_inr in Hins as [Ht1 Hfresh].
      specialize (IH st1).
      destruct (appendAll JSON_stringify sqlDateTime ops st1) as [rs st2].
      destruct IH as (Hlen & Ht2 & Hnd & Hc2 & Hd2). simpl.
      split; [congruence |]. split; [rewrite Ht2, Ht1, <- app_assoc; reflexivity |].
      split; [| split; congruence].
      intros Hnd0. apply Hnd. rewrite Ht1.
      apply NoDup_map_snoc; [exact Hnd0 | exact Hfresh].
Qed.

(** ** The event id determines its parts *)

Lemma append_same_length_tail (a b r1 r2 : string) :
  String.length r1 = String.length r2 ->
  (a ++ r1 = b ++ r2)%string -> a = b /\ r1 = r2.
Proof.
  revert b. induction a as [|x a IH]; intros b Hlen Heq.
  - destruct b as [|y b]; [now split |].
    rewrite append_nil in Heq. subst r1.
    rewrite append_cons in Hlen. simpl in Hlen. rewrite append_length in Hlen. lia.
  - destruct b as [|y b].
    + rewrite append_nil in Heq. subst r2.
      rewrite append_cons in Hlen. simpl in Hlen. rewrite append_length in Hlen. lia.
    + rewrite !append_cons in Heq. inversion Heq as [[Hxy Hrest]].
      destruct (IH b Hlen Hrest) as [-> ->]. now split.
Qed.

Lemma contains_append (c : ascii) (a b : string) :
  contains c (a ++ b) = contains c a || contains c b.
Proof.
  induction a as [|x a IH]; [reflexivity |].
  rewrite append_cons. simpl. now rewrite IH, orb_assoc.
Qed.

Lemma append_last_separator (x y p q : string) :
  contains "_"%char p = false -> contains "_"%char q = false ->
  (x ++ String "_"%char p = y ++ String "_"%char q)%string -> x = y /\ p = q.
Proof.
  revert y. induction x as [|v x IH]; intros y Hp Hq Heq.
  - destruct y as [|w y].
    + rewrite !append_nil in Heq. inversion Heq. now split.
    + rewrite append_nil, append_cons in Heq. inversion Heq as [[Hw Hrest]].
      rewrite Hrest, contains_append in Hp. simpl in Hp.
      rewrite orb_true_r in Hp. discriminate.
  - destruct y as [|w y].
    + rewrite append_nil, append_cons in Heq. inversion Heq as [[Hv Hrest]].
      rewrite <- Hrest, contains_append in Hq. simpl in Hq.
      rewrite orb_true_r in Hq. discriminate.
    + rewrite !append_cons in Heq. inversion Heq as [[Hvw Hrest]].
      destruct (IH y Hp Hq Hrest) as [-> ->]. now split.
Qed.

Lemma string_of_uint_no_separator (d : Decimal.uint) :
  contains "_"%char (NilEmpty.string_of_uint d) = false.
Proof. induction d; simpl; auto. Qed.

Lemma showInt_no_separator (n : Z) : contains "_"%char (showInt n) = false.
Proof.
  unfold showInt.
  destruct (to_int_cases n) as [(d & -> & Hnil) | (d & -> & Hnil)];
    simpl NilZero.string_of_int; rewrite (string_of_uint_nonnil d Hnil); simpl;
    apply string_of_uint_no_separator.
Qed.

Lemma int_of_string_showInt (n : Z) :
  NilZero.int_of_string (showInt n) = Some (Z.to_int n).
Proof.
  unfold showInt. apply NilZero.isi;
    destruct (to_int_cases n) as [(d & -> & Hnil) | (d & -> & Hnil)]; congruence.
Qed.

Lemma showInt_injective (n m : Z) : showInt n = showInt m -> n = m.
Proof.
  intros H. pose proof (int_of_string_showInt n) as Hn.
  rewrite H, int_of_string_showInt in Hn. inversion Hn as [Hto].
  rewrite <- (DecimalZ.of_to n), <- (DecimalZ.of_to m). now rewrite Hto.
Qed.

Lemma substring_length (n : nat) (s : string) :
  n <= String.length s -> String.length (substring 0 n s) = n.
Proof.
  revert s. induction n as [|n IH]; intros s Hn.
  - now destruct s.
  - destruct s as [|c s]; simpl in *; [lia |]. rewrite IH; [reflexivity | lia].
Qed.

Lemma suffix_length (bits : N) : String.length (substring 0 8 (randomUUID bits)) = 8.
Proof.
  apply substring_length. rewrite randomUUID_length. lia.
Qed.

(** X10: an event id determines the stream id, the clock reading and the
    random suffix it was generated from.  Two calls of [generateEventId]
    give the same id only for the same stream, the same millisecond and the
    same eight random digits; in particular ids generated for different
    streams never coincide. *)
Theorem generateEventId_injective (s1 s2 : StreamId) (n1 n2 : Z) (b1 b2 : N) :
  generateEventId s1 n1 b1 = generateEventId s2 n2 b2 ->
  s1 = s2 /\ n1 = n2
  /\ substring 0 8 (randomUUID b1) = substring 0 8 (randomUUID b2).
Proof.
  unfold generateEventId. intros H.
  assert (forall (s : string) n b,
            (s ++ "_" ++ showInt n ++ "_" ++ substring 0 8 (randomUUID b))%string
            = ((s ++ String "_"%char (showInt n ++ "_"))
               ++ substring 0 8 (randomUUID b))%string) as Hshape.
  { intros s n b. rewrite append_assoc, !append_cons, append_assoc. reflexivity. }
  rewrite !Hshape in H.
  apply append_same_length_tail in H as [H Hsuffix];
    [| now rewrite !suffix_length].
  assert (forall (s : string) n,
            (s ++ String "_"%char (showInt n ++ "_"))%string
            = ((s ++ String "_"%char (showInt n)) ++ "_")%string) as Hstamp.
  { intros s n. rewrite append_assoc, !append_cons. reflexivity. }
  rewrite !Hstamp in H.
  apply append_same_length_tail in H as [H _]; [| reflexivity].
  apply append_last_separator in H as [Hs Hn]; try apply showInt_no_separator.
  repeat split; auto. now apply showInt_injective.
Qed.

(** ** Closing the pool *)

Import Shutdown.

(** Whether a pool is cached does not matter to a call during which the
    database accepts connections. *)
Lemma storeEvent_pool_irrelevant streamId message env (st1 st2 : @State JSONRPCMessage Client) :
  connect env = None ->
  McpEvents st1 = McpEvents st2 ->
  fst (storeEvent JSON_stringify sqlDateTime streamId message env st1)
  = fst (storeEvent JSON_stringify sqlDateTime streamId message env st2)
  /\ McpEvents (snd (storeEvent JSON_stringify sqlDateTime streamId message env st1))
     = McpEvents (snd (storeEvent JSON_stringify sqlDateTime streamId message env st2)).
Proof.
  intros Hc Ht.
  pose proof (storeEvent_cases JSON_stringify sqlDateTime streamId message env st1) as H1.
  pose proof (storeEvent_cases JSON_stringify sqlDateTime streamId message env st2) as H2.
  cbv zeta in H1, H2. unfold reachable in H1, H2. rewrite Ht in H1.
  destruct (storeEvent JSON_stringify sqlDateTime streamId message env st1)
    as [[e1 | id1] s1];
    destruct (storeEvent JSON_stringify sqlDateTime streamId message env st2)
      as [[e2 | id2] s2]; cbn [fst snd].
  - destruct H1 as (Hc1 & Ht1 & _), H2 as (Hc2 & Ht2 & _).
    split; [| congruence].
    destruct Hc1 as [[_ Hc1] | [[_ Hc1] | [[_ Hf1] Hc1]]];
      destruct Hc2 as [[_ Hc2] | [[_ Hc2] | [[_ Hf2] Hc2]]]; congruence.
  - destruct H1 as (Hc1 & _), H2 as (_ & [_ Hf2] & Hins & _).
    destruct Hc1 as [[_ Hc1] | [[_ Hc1] | [_ Hc1]]]; congruence.
  - destruct H2 as (Hc2 & _), H1 as (_ & [_ Hf1] & Hins & _).
    destruct Hc2 as [[_ Hc2] | [[_ Hc2] | [_ Hc2]]]; congruence.
  - destruct H1 as (-> & _ & Hins1 & _), H2 as (-> & _ & Hins2 & _).
    split; congruence.
Qed.

Lemma replayEventsAfter_same_answer lastEventId send env
    (st1 st2 : @State JSONRPCMessage Client) :
  connect env = None ->
  selectEventsAfter (McpEvents st1) (extractStreamId lastEventId) lastEventId
  = selectEventsAfter (McpEvents st2) (extractStreamId lastEventId) lastEventId ->
  client st1 = client st2 ->
  deliveries st1 = deliveries st2 ->
  fst (replayEventsAfter JSON_parse lastEventId send env st1)
  = fst (replayEventsAfter JSON_parse lastEventId send env st2)
  /\ client (snd (replayEventsAfter JSON_parse lastEventId send env st1))
     = client (snd (replayEventsAfter JSON_parse lastEventId send env st2))
  /\ deliveries (snd (replayEventsAfter JSON_parse lastEventId send env st1))
     = deliveries (snd (replayEventsAfter JSON_parse lastEventId send env st2)).
Proof.
  intros Hc Ht Hcl Hds.
  destruct (replayEventsAfter_cases lastEventId send env st1)
    as [(Hs1 & line1 & ->) | [(Hs1 & e1 & p1 & lines1 & -> & _ & Hc1)
                             | (Hs1 & [_ Hf1] & rows1 & lines1 & Hsel1 & ->)]];
    destruct (replayEventsAfter_cases lastEventId send env st2)
      as [(Hs2 & line2 & ->) | [(Hs2 & e2 & p2 & lines2 & -> & _ & Hc2)
                               | (Hs2 & [_ Hf2] & rows2 & lines2 & Hsel2 & ->)]];
    cbn [fst snd client deliveries]; try congruence; unfold reachable in *;
    rewrite ?Ht in *.
  - now repeat split.
  - repeat split; auto.
    destruct Hc1 as [[_ Hc1] | [Hc1 | [[_ Hf1] Hc1]]];
      destruct Hc2 as [[_ Hc2] | [Hc2 | [[_ Hf2] Hc2]]]; congruence.
  - destruct Hc1 as [[_ Hc1] | [Hc1 | [_ Hc1]]]; congruence.
  - destruct Hc2 as [[_ Hc2] | [Hc2 | [_ Hc2]]]; congruence.
  - assert (rows1 = rows2) as -> by congruence.
    rewrite Hcl, Hds. now repeat split.
Qed.

(** X16: closing the pool loses nothing.  [closeDbPool] never changes the
    table or the receiver; when it resolves no pool is cached and a further
    call writes nothing and changes nothing; and as long as the database
    accepts connections, the next [storeEvent] or [replayEventsAfter]
    returns what it would have returned without the close, leaving the same
    table, and making the same calls to [send]. *)
Theorem closeDbPool_loses_nothing (close : option JsError)
    (st : @State JSONRPCMessage Client) :
  let '(r, st1, lines) := closeDbPool close st in
  McpEvents st1 = McpEvents st /\ client st1 = client st
  /\ deliveries st1 = deliveries st
  /\ match r with
     | inl err => close = Some err /\ pool st = true /\ st1 = st
     | inr _ =>
         pool st1 = false
         /\ (forall close2, closeDbPool close2 st1 = (inr tt, st1, []))
         /\ forall env, connect env = None ->
              (forall streamId message,
                 fst (storeEvent JSON_stringify sqlDateTime streamId message env st1)
                 = fst (storeEvent JSON_stringify sqlDateTime streamId message env st)
                 /\ McpEvents (snd (storeEvent JSON_stringify sqlDateTime streamId
                                      message env st1))
                    = McpEvents (snd (storeEvent JSON_stringify sqlDateTime streamId
                                        message env st)))
              /\ (forall lastEventId send,
                    fst (replayEventsAfter JSON_parse lastEventId send env st1)
                    = fst (replayEventsAfter JSON_parse lastEventId send env st)
                    /\ deliveries (snd (replayEventsAfter JSON_parse lastEventId send
                                          env st1))
                       = deliveries (snd (replayEventsAfter JSON_parse lastEventId send
                                            env st)))
     end.
Proof.
  assert (forall st1 : @State JSONRPCMessage Client,
            McpEvents st1 = McpEvents st -> client st1 = client st ->
            deliveries st1 = deliveries st ->
            forall env, connect env = None ->
              (forall streamId message,
                 fst (storeEvent JSON_stringify sqlDateTime streamId message env st1)
                 = fst (storeEvent JSON_stringify sqlDateTime streamId message env st)
                 /\ McpEvents (snd (storeEvent JSON_stringify sqlDateTime streamId
                                      message env st1))
                    = McpEvents (snd (storeEvent JSON_stringify sqlDateTime streamId
                                        message env st)))
              /\ (forall lastEventId send,
                    fst (replayEventsAfter JSON_parse lastEventId send env st1)
                    = fst (replayEventsAfter JSON_parse lastEventId send env st)
                    /\ deliveries (snd (replayEventsAfter JSON_parse lastEventId send
                                          env st1))
                       = deliveries (snd (replayEventsAfter JSON_parse lastEventId send
                                            env st)))) as Hsame.
  { intros st1 Ht Hcl Hds env Hc. split.
    - intros streamId message. now apply storeEvent_pool_irrelevant.
    - intros lastEventId send.
      destruct (replayEventsAfter_same_answer lastEventId send env st1 st
                  Hc (f_equal (fun t => selectEventsAfter t _ _) Ht) Hcl Hds)
        as (H1 & _ & H2).
      now split. }
  unfold closeDbPool.
  destruct (pool st) eqn:Hpool; [destruct close as [err|] |].
  - now repeat split.
  - do 4 (split; [reflexivity |]). split; [reflexivity |]. now apply Hsame.
  - do 3 (split; [reflexivity |]). split; [exact Hpool |].
    split; [intros close2; now rewrite Hpool | now apply Hsame].
Qed.

(** ** Streams *)

Lemma selectEventsAfter_other_stream (t : list Row) (row : Row) (streamId : StreamId)
    (lastEventId : EventId) :
  StreamId_ row <> streamId ->
  selectEventsAfter (t ++ [row]) streamId lastEventId
  = selectEventsAfter t streamId lastEventId.
Proof.
  intros Hne. apply String.eqb_neq in Hne.
  unfold selectEventsAfter, referenceStoredAt.
  rewrite !List.filter_app. cbn [List.filter].
  rewrite Hne, andb_false_r, app_nil_r. cbn [andb].
  destruct (List.filter _ t) as [|le [|le2 rest]]; try reflexivity.
  rewrite List.filter_app. cbn [List.filter]. rewrite Hne. cbn [andb].
  now rewrite app_nil_r.
Qed.

(** X18: streams do not see each other.  An event stored on one stream
    changes nothing for the replays of any other stream: the replay returns
    the same result and makes the same calls to [send] as it would have
    without the event. *)
Theorem other_streams_are_invisible streamId message env0 lastEventId send env
    (st st1 : @State JSONRPCMessage Client) id :
  storeEvent JSON_stringify sqlDateTime streamId message env0 st = (inr id, st1) ->
  streamId <> extractStreamId lastEventId ->
  connect env = None ->
  fst (replayEventsAfter JSON_parse lastEventId send env st1)
  = fst (replayEventsAfter JSON_parse lastEventId send env st)
  /\ deliveries (snd (replayEventsAfter JSON_parse lastEventId send env st1))
     = deliveries (snd (replayEventsAfter JSON_parse lastEventId send env st)).
Proof.
  intros Hstore Hne Hc.
  pose proof (storeEvent_cases JSON_stringify sqlDateTime streamId message env0 st) as H.
  cbv zeta in H. rewrite Hstore in H.
  destruct H as (_ & _ & Hins & _ & Hcl & Hds).
  unfold insertRow in Hins. destruct (existsb _ _); [discriminate |].
  inversion Hins as [Ht].
  destruct (replayEventsAfter_same_answer lastEventId send env st1 st Hc)
    as (H1 & _ & H2); auto.
  rewrite <- Ht. now apply selectEventsAfter_other_stream.
Qed.

End StoreBehaviour.

(** * Further properties of the session registry *)

Section RegistryBehaviour.

Import Server RegistrySpec.

Variable isInitializeRequest : Json.value -> bool.
Variable sdk : Transport -> Request -> Handling.

Implicit Types (m : gmap string Transport) (s : Server).

Lemma snd_tryHandle (v : Looked) (req : Request) (internalError : Response) s :
  snd (tryHandle sdk v req internalError s)
  = match v with Own t => snd (handleRequest sdk t req s) | _ => s end.
Proof.
  unfold tryHandle. destruct v as [|t|key]; try reflexivity.
  destruct (handleRequest sdk t req s) as [[[[err|] []] written] s']; reflexivity.
Qed.

(** What a request does to the server: nothing, or what the transport of the
    session it names does, or what a newly constructed transport does. *)
Lemma serve_server (req : Request) (bits : N) s :
  snd (serve isInitializeRequest sdk req bits s) = s
  \/ (exists sid t, mcpSessionId req = Some sid /\ transports s !! sid = Some t
        /\ snd (serve isInitializeRequest sdk req bits s)
           = snd (handleRequest sdk t req s))
  \/ (method req = POST /\ present (mcpSessionId req) = false
      /\ isInitializeRequest (body req) = true
      /\ snd (serve isInitializeRequest sdk req bits s)
         = snd (handleRequest sdk (mkTransport (randomUUID bits) None) req
                  (mkServer (transports s)
                            (constructed s ++ [mkTransport (randomUUID bits) None])))).
Proof.
  unfold serve, postMcp, handleSessionRequest.
  destruct (mcpSessionId req) as [sid|] eqn:Hsid; cbn [present getHeader].
  - unfold get. destruct (falsy sid) eqn:Hfalsy; cbn [negb andb orb].
    + destruct (method req) eqn:Hm; try (now left).
      destruct (isInitializeRequest (body req)) eqn:Hinit; [| now left].
      right; right. rewrite !snd_tryHandle. repeat split; auto.
    + destruct (transports s !! sid) as [t|] eqn:Hown.
      * cbn [truthy negb]. right; left. exists sid, t.
        destruct (method req); rewrite snd_tryHandle; auto.
      * destruct (inherited sid); cbn [truthy negb];
          destruct (method req); rewrite ?snd_tryHandle; now left.
  - cbn [truthy negb andb orb].
    destruct (method req) eqn:Hm; try (now left).
    destruct (isInitializeRequest (body req)) eqn:Hinit; [| now left].
    right; right. rewrite !snd_tryHandle. repeat split; auto.
Qed.

(** The entries a transport's hooks leave untouched: all but its own. *)
Lemma handleRequest_lookup_other (t : Transport) (req : Request) s (k : string) :
  sessionId t = None \/ sessionId t = Some (generator t) ->
  k <> generator t ->
  transports (snd (handleRequest sdk t req s)) !! k = transports s !! k.
Proof.
  intros Hid Hk. unfold handleRequest. cbn [snd transports].
  destruct (initializes (sdk t req)), (closes (sdk t req)); unfold onclose;
    cbn [sessionId generator]; try reflexivity.
  - destruct (falsy (generator t)); rewrite ?lookup_delete_ne by auto;
      now rewrite lookup_insert_ne by auto.
  - now rewrite lookup_insert_ne by auto.
  - destruct Hid as [-> | ->]; [reflexivity |].
    destruct (falsy (generator t)); [reflexivity |]. now rewrite lookup_delete_ne by auto.
Qed.

(** The transport's own entry after it handled a request. *)
Lemma handleRequest_lookup_own (t : Transport) (req : Request) s :
  falsy (generator t) = false ->
  transports (snd (handleRequest sdk t req s)) !! generator t
  = if initializes (sdk t req)
    then if closes (sdk t req) then None
         else Some (mkTransport (generator t) (Some (generator t)))
    else if closes (sdk t req)
         then match sessionId t with
              | Some sid => if falsy sid then transports s !! generator t
                            else delete sid (transports s) !! generator t
              | None => transports s !! generator t
              end
         else transports s !! generator t.
Proof.
  intros Hgen. unfold handleRequest. cbn [snd transports].
  destruct (initializes (sdk t req)), (closes (sdk t req)); unfold onclose;
    cbn [sessionId generator]; rewrite ?Hgen; try reflexivity.
  - apply lookup_delete_eq.
  - apply lookup_insert_eq.
  - destruct (sessionId t) as [sid|]; [destruct (falsy sid) |]; reflexivity.
Qed.

Lemma handleRequest_constructed (t : Transport) (req : Request) s :
  constructed (snd (handleRequest sdk t req s)) = constructed s.
Proof. reflexivity. Qed.

Lemma handleRequest_wellKeyed (t : Transport) (req : Request) s :
  (exists bits, generator t = randomUUID bits) ->
  wellKeyed s -> wellKeyed (snd (handleRequest sdk t req s)).
Proof.
  intros Hgen Hs.
  assert (forall m, (forall k t0, m !! k = Some t0 ->
                       generator t0 = k /\ sessionId t0 = Some k
                       /\ exists bits, k = randomUUID bits) ->
                    forall k t0,
                      <[generator t := mkTransport (generator t) (Some (generator t))]> m
                        !! k = Some t0 ->
                      generator t0 = k /\ sessionId t0 = Some k
                      /\ exists bits, k = randomUUID bits) as Hinsert.
  { intros m Hm k t0 Hk.
    apply lookup_insert_Some in Hk as [[<- <-] | [_ Hk]]; [| now apply Hm].
    now repeat split. }
  assert (forall t1 m, (forall k t0, m !! k = Some t0 ->
                          generator t0 = k /\ sessionId t0 = Some k
                          /\ exists bits, k = randomUUID bits) ->
                       forall k t0, onclose t1 m !! k = Some t0 ->
                         generator t0 = k /\ sessionId t0 = Some k
                         /\ exists bits, k = randomUUID bits) as Hclose.
  { intros t1 m Hm k t0 Hk. apply Hm. unfold onclose in Hk.
    destruct (sessionId t1) as [sid|]; [destruct (falsy sid) |]; auto.
    now apply lookup_delete_Some in Hk as [_ Hk]. }
  unfold wellKeyed, handleRequest in *. cbn [snd transports].
  destruct (initializes (sdk t req)), (closes (sdk t req)).
  - exact (Hclose _ _ (Hinsert _ Hs)).
  - exact (Hinsert _ Hs).
  - exact (Hclose _ _ Hs).
  - exact Hs.
Qed.

Lemma serve_wellKeyed (req : Request) (bits : N) s :
  wellKeyed s -> wellKeyed (snd (serve isInitializeRequest sdk req bits s)).
Proof.
  intros Hs.
  destruct (serve_server req bits s)
    as [-> | [(sid & t & _ & Hown & ->) | (_ & _ & _ & ->)]]; [exact Hs | |].
  - apply handleRequest_wellKeyed; [| exact Hs].
    destruct (Hs sid t Hown) as (-> & _ & Hbits). exact Hbits.
  - apply handleRequest_wellKeyed; [now exists bits | exact Hs].
Qed.

Lemma started_wellKeyed : wellKeyed started.
Proof. intros k t H. cbn in H. now rewrite lookup_empty in H. Qed.



Lemma wellKeyed_own (k : string) (t : Transport) s :
  wellKeyed s -> transports s !! k = Some t ->
  generator t = k /\ sessionId t = Some (generator t) /\ falsy k = false
  /\ inherited k = false.
Proof.
  intros Hs Hk. destruct (Hs k t Hk) as (Hgen & Hsid & bits & Hbits).
  repeat split; auto.
  - now rewrite Hgen.
  - subst k. rewrite Hbits. apply randomUUID_truthy.
  - subst k. rewrite Hbits. apply randomUUID_not_inherited.
Qed.

(** X12: a request changes at most one entry of [transports]: that of the
    session it names in its header, or that of the id it draws.  Every other
    session keeps its transport, whatever the transport handling the request
    does. *)
Theorem serve_leaves_other_sessions (req : Request) (bits : N) s (k : string) :
  wellKeyed s ->
  mcpSessionId req <> Some k ->
  k <> randomUUID bits ->
  transports (snd (serve isInitializeRequest sdk req bits s)) !! k = transports s !! k.
Proof.
  intros Hs Hhdr Hnew.
  destruct (serve_server req bits s)
    as [-> | [(sid & t & Hsid & Hown & ->) | (_ & _ & _ & ->)]]; [reflexivity | |].
  - destruct (wellKeyed_own sid t s Hs Hown) as (Hgen & Hid & _).
    apply handleRequest_lookup_other; [now right |]. congruence.
  - rewrite handleRequest_lookup_other; [reflexivity | now left | exact Hnew].
Qed.

(** X13: a session appears in [transports] only through an initialization:
    if a key is registered after a request and was not before, the request
    was a [POST] without (non-empty) session id whose body is an
    initialization request, the key is the id drawn for it, and the
    transport ran its initialization. *)
Theorem only_initialization_registers (req : Request) (bits : N) s (k : string)
    (t : Transport) :
  wellKeyed s ->
  transports s !! k = None ->
  transports (snd (serve isInitializeRequest sdk req bits s)) !! k = Some t ->
  method req = POST /\ present (mcpSessionId req) = false
  /\ isInitializeRequest (body req) = true
  /\ k = randomUUID bits /\ t = mkTransport k (Some k)
  /\ initializes (sdk (mkTransport k None) req) = true.
Proof.
  intros Hs Hold Hnew.
  destruct (serve_server req bits s)
    as [Heq | [(sid & t0 & Hsid & Hown & Heq) | (Hm & Hp & Hinit & Heq)]];
    rewrite Heq in Hnew.
  - congruence.
  - destruct (wellKeyed_own sid t0 s Hs Hown) as (Hgen & Hid & Hfalsy & _).
    destruct (String.eqb_spec k sid) as [-> | Hne].
    + congruence.
    + rewrite handleRequest_lookup_other in Hnew; [congruence | now right | congruence].
  - destruct (String.eqb_spec k (randomUUID bits)) as [-> | Hne].
    + pose proof (handleRequest_lookup_own (mkTransport (randomUUID bits) None) req
                    (mkServer (transports s)
                       (constructed s ++ [mkTransport (randomUUID bits) None]))
                    (randomUUID_truthy bits)) as Hown.
      cbn [generator] in Hown. rewrite Hown in Hnew.
      cbn [generator sessionId transports] in Hnew.
      destruct (initializes (sdk (mkTransport (randomUUID bits) None) req)) eqn:Hruns;
        destruct (closes (sdk (mkTransport (randomUUID bits) None) req));
        try congruence.
      inversion Hnew. now repeat split.
    + rewrite handleRequest_lookup_other in Hnew; [| now left | exact Hne].
      cbn [transports] in Hnew. congruence.
Qed.

(** A request naming a registered session goes to the transport of that
    session. *)
Lemma serve_registered (req : Request) (bits : N) s (sid : string) (t : Transport) :
  mcpSessionId req = Some sid -> falsy sid = false -> transports s !! sid = Some t ->
  serve isInitializeRequest sdk req bits s
  = tryHandle sdk (Own t) req
      (match method req with
       | POST => JsonRpcError 500 (-32603) "Internal Server Error" (bodyId (body req))
       | GET | DELETE => Plain 500 "Internal Server Error"
       end) s.
Proof.
  intros Hsid Hfalsy Hown.
  unfold serve, postMcp, handleSessionRequest.
  rewrite Hsid. cbn [present getHeader]. unfold get. rewrite Hfalsy, Hown.
  cbn [truthy negb andb orb]. now destruct (method req).
Qed.

Lemma serve_unregistered (req : Request) (bits : N) s (sid : string) :
  mcpSessionId req = Some sid -> falsy sid = false -> inherited sid = false ->
  transports s !! sid = None ->
  serve isInitializeRequest sdk req bits s
  = (match method req with
     | POST => JsonRpcError 400 (-32000)
                 "Bad Request: No valid session ID provided or not an initialization request."
                 (bodyId (body req))
     | GET | DELETE => Plain 400 "Invalid or missing session ID"
     end, s).
Proof.
  intros Hsid Hfalsy Hinh Hown.
  unfold serve, postMcp, handleSessionRequest.
  rewrite Hsid. cbn [present getHeader]. unfold get. rewrite Hfalsy, Hown, Hinh.
  cbn [truthy negb andb orb]. now destruct (method req).
Qed.

(** X14: a request on which the transport of its session closes ends the
    session: the id is no longer a key of [transports], and every later
    request presenting it is answered 400 and changes nothing. *)
Theorem closing_ends_session (req : Request) (bits : N) s (sid : string)
    (t : Transport) :
  wellKeyed s ->
  mcpSessionId req = Some sid ->
  transports s !! sid = Some t ->
  closes (sdk t req) = true ->
  let s' := snd (serve isInitializeRequest sdk req bits s) in
  transports s' !! sid = None
  /\ forall req' bits', mcpSessionId req' = Some sid ->
       serve isInitializeRequest sdk req' bits' s'
       = (match method req' with
          | POST => JsonRpcError 400 (-32000)
                      "Bad Request: No valid session ID provided or not an initialization request."
                      (bodyId (body req'))
          | GET | DELETE => Plain 400 "Invalid or missing session ID"
          end, s').
Proof.
  intros Hs Hsid Hown Hcloses s'.
  destruct (wellKeyed_own sid t s Hs Hown) as (Hgen & Hid & Hfalsy & Hinh).
  assert (transports s' !! sid = None) as Hgone.
  { subst s'. rewrite (serve_registered req bits s sid t Hsid Hfalsy Hown).
    rewrite snd_tryHandle.
    pose proof (handleRequest_lookup_own t req s) as Hlook.
    rewrite Hcloses, Hid, Hgen, Hfalsy, lookup_delete_eq in Hlook.
    rewrite Hlook by reflexivity. now destruct (initializes (sdk t req)). }
  split; [exact Hgone |].
  intros req' bits' Hsid'. now apply (serve_unregistered req' bits' s' sid).
Qed.

(** X15: a request naming a registered session is handled by the transport
    of that session and by no other: no transport is constructed, even when
    the body is an initialization request.  The answer is what the transport
    wrote, unless it rejected before the response head was sent; then, and
    only then, the handler answers 500. *)
Theorem registered_session_is_routed (req : Request) (bits : N) s (sid : string)
    (t : Transport) :
  wellKeyed s ->
  mcpSessionId req = Some sid ->
  transports s !! sid = Some t ->
  fst (serve isInitializeRequest sdk req bits s)
  = match rejects (sdk t req), headersSent (sdk t req) with
    | Some _, false =>
        match method req with
        | POST => JsonRpcError 500 (-32603) "Internal Server Error" (bodyId (body req))
        | GET | DELETE => Plain 500 "Internal Server Error"
        end
    | _, _ => Transported (reply (sdk t req))
    end
  /\ constructed (snd (serve isInitializeRequest sdk req bits s)) = constructed s.
Proof.
  intros Hs Hsid Hown.
  destruct (wellKeyed_own sid t s Hs Hown) as (_ & _ & Hfalsy & _).
  rewrite (serve_registered req bits s sid t Hsid Hfalsy Hown).
  unfold tryHandle, handleRequest.
  destruct (rejects (sdk t req)) as [err|]; [destruct (headersSent (sdk t req)) |];
    now split.
Qed.

(** ** The id of an error response *)

Lemma bodyId_truthy (b : Json.value) :
  bodyId b = Json.Null \/ truthyValue (bodyId b) = true.
Proof.
  unfold bodyId. destruct b as [| | | | |members]; try (now left).
  destruct (member "id" members) as [v|]; [| now left].
  destruct (truthyValue v) eqn:Hv; [now right | now left].
Qed.

Lemma fst_tryHandle (v : Looked) (req : Request) (internalError : Response) s :
  fst (tryHandle sdk v req internalError s) = internalError
  \/ exists written, fst (tryHandle sdk v req internalError s) = Transported written.
Proof.
  unfold tryHandle. destruct v as [|t|key]; try (now left).
  destruct (handleRequest sdk t req s) as [[[[err|] []] written] s']; cbn [fst]; eauto.
Qed.

(** X19: the id of a JSON-RPC error response.  Whenever the server answers
    with a JSON-RPC error object, the [id] it carries is the [id] member of
    the request body if that is truthy and [null] otherwise: a request id
    such as [0] or the empty string is answered with [id: null]. *)
Theorem error_response_id (req : Request) (bits : N) s (status : nat) (code : Z)
    (message : string) (id : Json.value) :
  fst (serve isInitializeRequest sdk req bits s) = JsonRpcError status code message id ->
  id = bodyId (body req) /\ (id = Json.Null \/ truthyValue id = true).
Proof.
  intros H.
  assert (id = bodyId (body req)) as ->; [| split; [reflexivity | apply bodyId_truthy]].
  unfold serve, postMcp, handleSessionRequest in H.
  destruct (method req).
  - destruct (_ || _) in H; [discriminate |].
    destruct (fst_tryHandle (getHeader (transports s) (mcpSessionId req)) req
                (Plain 500 "Internal Server Error") s) as [Heq | [w Heq]];
      rewrite Heq in H; discriminate.
  - destruct (_ && _) in H.
    + destruct (fst_tryHandle (getHeader (transports s) (mcpSessionId req)) req
                  (JsonRpcError 500 (-32603) "Internal Server Error" (bodyId (body req)))
                  s) as [Heq | [w Heq]]; rewrite Heq in H; [congruence | discriminate].
    + destruct (_ && _) in H; [| cbn [fst] in H; congruence].
      match type of H with
      | fst (tryHandle _ ?v _ ?ie ?s0) = _ =>
          destruct (fst_tryHandle v req ie s0) as [Heq | [w Heq]]
      end; rewrite Heq in H; [congruence | discriminate].
  - destruct (_ || _) in H; [discriminate |].
    destruct (fst_tryHandle (getHeader (transports s) (mcpSessionId req)) req
                (Plain 500 "Internal Server Error") s) as [Heq | [w Heq]];
      rewrite Heq in H; discriminate.
Qed.

End RegistryBehaviour.

(** * The further properties on closed scenarios *)

Section BehaviourScenarios.

Import Scenario Cases Server RegistrySpec.

Abbreviation replayJson := (replayEventsAfter (Client := unit) Json.parse).


(** An id that begins with the separator, run with the connection refused:
    the empty stream id, one console line, no error. *)
Example replay_of_a_leading_separator :
  replayJson "_GET_stream_1730541600000_0000004d" accept (unreachable 0 0) (idle damaged)
  = (inr "", mkState false damaged
               [ErrNoStreamId "_GET_stream_1730541600000_0000004d"] tt []).
Proof. reflexivity. Qed.

Lemma replayEventsAfter_throws_before_delivering_witness :
  let st' := snd (replayJson "s1_1000_0000000a" accept (unreachable 0 0) (idle damaged)) in
  replayJson "s1_1000_0000000a" accept (unreachable 0 0) (idle damaged)
  = (inl connectionError, st')
  /\ ((pool (idle damaged) = false /\ connect (unreachable 0 0) = Some connectionError)
      \/ fault (unreachable 0 0) = Some connectionError
      \/ selectEventsAfter (McpEvents (idle damaged))
           (extractStreamId "s1_1000_0000000a") "s1_1000_0000000a" = inl connectionError)
     /\ deliveries st' = deliveries (idle damaged)
     /\ client st' = client (idle damaged).
Proof.
  intros st'. split; [reflexivity |].
  apply (replayEventsAfter_throws_before_delivering Json.parse "s1_1000_0000000a" accept
           (unreachable 0 0) (idle damaged) connectionError st').
  reflexivity.
Defined.

Lemma selectEventsAfter_answer_witness :
  selectEventsAfter damaged "s1" "s1_1000_0000000a"
  = inr [mkRecordsetRow "s1_1001_0000000b" "[2]";
         mkRecordsetRow "s1_1002_0000000c" "{oops";
         mkRecordsetRow "s1_1003_0000000d" "null"]
  /\ exists full,
       [mkRecordsetRow "s1_1001_0000000b" "[2]";
        mkRecordsetRow "s1_1002_0000000c" "{oops";
        mkRecordsetRow "s1_1003_0000000d" "null"]
       = List.map (fun e => mkRecordsetRow (EventId_ e) (MessageJson e)) full
       /\ Permutation full
            (List.filter (StoreSpec.storedAfter damaged "s1" "s1_1000_0000000a") damaged)
       /\ StronglySorted (fun x y => (StoredAt x <= StoredAt y)%Z) full.
Proof.
  split; [reflexivity |].
  apply (selectEventsAfter_answer damaged "s1" "s1_1000_0000000a"). reflexivity.
Defined.

Lemma damaged_unique_ids : List.NoDup (List.map EventId_ damaged).
Proof.
  simpl. repeat (constructor; [simpl; intuition discriminate |]). constructor.
Defined.

Lemma selectEventsAfter_total_witness :
  List.NoDup (List.map EventId_ damaged)
  /\ exists rows, selectEventsAfter damaged "s1" "s1_1002_0000000c" = inr rows.
Proof.
  split; [exact damaged_unique_ids |].
  apply (selectEventsAfter_total damaged "s1" "s1_1002_0000000c" damaged_unique_ids).
Defined.

Lemma replayEventsAfter_delivers_witness :
  let rows := [mkRecordsetRow "s1_1002_0000000c" "{oops";
               mkRecordsetRow "s1_1003_0000000d" "null"] in
  reachable (answering 0 0) (idle damaged)
  /\ exists lines,
       replayJson "s1_1001_0000000b" accept (answering 0 0) (idle damaged)
       = (inr (extractStreamId "s1_1001_0000000b"),
          mkState true (McpEvents (idle damaged))
            (console (idle damaged) ++ lines
             ++ [LogReplayed
                   (length (List.filter resolved
                              (fst (deliverAll accept (parsed Json.parse rows)
                                      (client (idle damaged))))))
                   (extractStreamId "s1_1001_0000000b")])
            (snd (deliverAll accept (parsed Json.parse rows) (client (idle damaged))))
            (deliveries (idle damaged)
             ++ fst (deliverAll accept (parsed Json.parse rows) (client (idle damaged))))).
Proof.
  intros rows.
  assert (reachable (answering 0 0) (idle damaged)) as Hreach.
  { split; [now right | reflexivity]. }
  split; [exact Hreach |].
  apply (replayEventsAfter_delivers Json.parse "s1_1001_0000000b" accept (answering 0 0)
           (idle damaged) rows); [reflexivity | exact Hreach | reflexivity].
Defined.

Lemma replayEventsAfter_delivers_later_rows_witness :
  let d := mkDelivery "s1_1003_0000000d" Json.Null None in
  dEventId d <> "s1_1001_0000000b"
  /\ exists row,
       In row (McpEvents (running damaged))
       /\ EventId_ row = dEventId d
       /\ Json.parse (MessageJson row) = inr (dMessage d)
       /\ StoreSpec.storedAfter (McpEvents (running damaged))
            (extractStreamId "s1_1001_0000000b") "s1_1001_0000000b" row = true.
Proof.
  intros d.
  apply (replayEventsAfter_delivers_later_rows Json.parse "s1_1001_0000000b" accept
           (answering 0 0) (running damaged) [d] d); [reflexivity | now left].
Defined.

Lemma separator_stream_never_replays_witness :
  let st := running [rowOf Json.stringify datetime underscored] in
  contains "_"%char (aStream underscored) = true
  /\ let (r, st') := replayJson (eventIdOf underscored) accept (answering 0 0) st in
     r <> inr (aStream underscored)
     /\ deliveries st' = deliveries st /\ client st' = client st.
Proof.
  intros st. split; [reflexivity |].
  apply (separator_stream_never_replays Json.stringify Json.parse datetime underscored
           accept (answering 0 0) st).
  - now left.
  - simpl. repeat (constructor; [simpl; intuition discriminate |]). constructor.
  - reflexivity.
Defined.

Lemma generateEventId_injective_witness :
  generateEventId "s1" 1730541600000 (leading 77)
  = generateEventId "s1" 1730541600000 (leading 77 + 5)
  /\ "s1" = "s1" /\ 1730541600000%Z = 1730541600000%Z
  /\ substring 0 8 (randomUUID (leading 77))
     = substring 0 8 (randomUUID (leading 77 + 5)).
Proof.
  split; [reflexivity |].
  apply (generateEventId_injective "s1" "s1" 1730541600000 1730541600000
           (leading 77) (leading 77 + 5)).
  reflexivity.
Defined.

Lemma opened_wellKeyed (bits : N) : wellKeyed (opened bits).
Proof. apply serve_wellKeyed, started_wellKeyed. Defined.

Lemma opened_registered (bits : N) :
  transports (opened bits) !! randomUUID bits
  = Some (mkTransport (randomUUID bits) (Some (randomUUID bits))).
Proof.
  unfold opened, serve, postMcp, tryHandle, handleRequest.
  cbn. apply lookup_insert_eq.
Defined.

Lemma serve_leaves_other_sessions_witness :
  randomUUID 1 <> randomUUID 2
  /\ transports (snd (serve isInitialize answers initializeRequest 2 (opened 1)))
       !! randomUUID 1
     = transports (opened 1) !! randomUUID 1.
Proof.
  assert (randomUUID 1 <> randomUUID 2) as Hne by (vm_compute; discriminate).
  split; [exact Hne |].
  apply (serve_leaves_other_sessions isInitialize answers initializeRequest 2 (opened 1)
           (randomUUID 1) (opened_wellKeyed 1)); [discriminate | exact Hne].
Defined.

Lemma only_initialization_registers_witness :
  let k := randomUUID 1 in
  transports (opened 1) !! k = Some (mkTransport k (Some k))
  /\ method initializeRequest = POST
  /\ present (mcpSessionId initializeRequest) = false
  /\ isInitialize (body initializeRequest) = true
  /\ k = randomUUID 1 /\ mkTransport k (Some k) = mkTransport k (Some k)
  /\ initializes (answers (mkTransport k None) initializeRequest) = true.
Proof.
  intros k. split; [apply opened_registered |].
  apply (only_initialization_registers isInitialize answers initializeRequest 1 started k
           (mkTransport k (Some k)) started_wellKeyed).
  - apply lookup_empty.
  - apply opened_registered.
Defined.

Lemma closing_ends_session_witness :
  let sid := randomUUID 1 in
  let req := mkRequest DELETE (Some sid) Json.Null in
  let s' := snd (serve isInitialize answers req 2 (opened 1)) in
  closes (answers (mkTransport sid (Some sid)) req) = true
  /\ transports s' !! sid = None
  /\ forall req' bits', mcpSessionId req' = Some sid ->
       serve isInitialize answers req' bits' s'
       = (match method req' with
          | POST => JsonRpcError 400 (-32000)
                      "Bad Request: No valid session ID provided or not an initialization request."
                      (bodyId (body req'))
          | GET | DELETE => Plain 400 "Invalid or missing session ID"
          end, s').
Proof.
  intros sid req s'. split; [reflexivity |].
  apply (closing_ends_session isInitialize answers req 2 (opened 1) sid
           (mkTransport sid (Some sid)) (opened_wellKeyed 1));
    [reflexivity | apply opened_registered | reflexivity].
Defined.

Lemma registered_session_is_routed_witness :
  let sid := randomUUID 1 in
  let req := mkRequest POST (Some sid) callBody in
  fst (serve isInitialize answers req 2 (opened 1)) = Transported "ok"
  /\ constructed (snd (serve isInitialize answers req 2 (opened 1)))
     = constructed (opened 1).
Proof.
  intros sid req.
  apply (registered_session_is_routed isInitialize answers req 2 (opened 1) sid
           (mkTransport sid (Some sid)) (opened_wellKeyed 1));
    [reflexivity | apply opened_registered].
Defined.

Lemma other_streams_are_invisible_witness :
  let st1 := snd (storeEvent Json.stringify datetime "s2" (Json.Str "X")
                    (answering 2000 (leading 9)) (running damaged)) in
  "s2" <> extractStreamId "s1_1000_0000000a"
  /\ fst (replayJson "s1_1000_0000000a" accept (answering 0 0) st1)
     = fst (replayJson "s1_1000_0000000a" accept (answering 0 0) (running damaged))
  /\ deliveries (snd (replayJson "s1_1000_0000000a" accept (answering 0 0) st1))
     = deliveries (snd (replayJson "s1_1000_0000000a" accept (answering 0 0)
                          (running damaged))).
Proof.
  intros st1.
  assert ("s2" <> extractStreamId "s1_1000_0000000a") as Hne by discriminate.
  split; [exact Hne |].
  apply (other_streams_are_invisible Json.stringify Json.parse datetime "s2" (Json.Str "X")
           (answering 2000 (leading 9)) "s1_1000_0000000a" accept (answering 0 0)
           (running damaged) st1
           (generateEventId "s2" 2000 (leading 9)));
    [reflexivity | exact Hne | reflexivity].
Defined.

Lemma error_response_id_witness :
  let req := mkRequest POST None (Json.Object [("method", Json.Str "ping");
                                              ("id", Json.Number 0)]) in
  fst (serve isInitialize answers req 1 started)
  = JsonRpcError 400 (-32000)
      "Bad Request: No valid session ID provided or not an initialization request."
      Json.Null
  /\ Json.Null = bodyId (body req)
  /\ (Json.Null = Json.Null \/ truthyValue Json.Null = true).
Proof.
  intros req. split; [reflexivity |].
  apply (error_response_id isInitialize answers req 1 started 400 (-32000)
           "Bad Request: No valid session ID provided or not an initialization request."
           Json.Null).
  reflexivity.
Defined.


End BehaviourScenarios.
